(** * Tic-tac-toe engine of tictactoe.js: a shallow embedding

    The script keeps its state in module-level variables ([origBoard],
    [gameActive]) and mutates the board array in place, also inside the
    minimax search, which receives the array by reference.  The embedding
    therefore threads an explicit store: a heap of arrays addressed by
    location, the global [origBoard] holding a location, the flag, the
    status line and the number of pending [setTimeout] callbacks. *)

From stdpp Require Import gmap list relations sorting.
From Stdlib Require Import ZArith Lia.

(** ** Values *)

(** The two marks, ['X'] and ['O']. *)
Inductive player := X | O.

Definition huPlayer : player := X.
Definition aiPlayer : player := O.

Global Instance player_eq_dec : EqDecision player.
Proof. solve_decision. Defined.

(** What a board slot or a [move.index] can hold: a number, one of the two
    mark strings, or [undefined] (a missing property, a hole). *)
Inductive value :=
  | Num (n : nat)
  | Str (p : player)
  | Undefined.

Global Instance value_eq_dec : EqDecision value.
Proof. solve_decision. Defined.

(** [typeof v === 'number'] *)
Definition typeofNumber (v : value) : bool :=
  match v with Num _ => true | _ => false end.

(** [v === w] on these values *)
Definition strictEq (v w : value) : bool := bool_decide (v = w).

(** A JS array of such values. *)
Abbreviation array := (list value).

(** [a[k]]: an index property for a number key inside the array, [undefined]
    otherwise. *)
Definition aget (a : array) (k : value) : value :=
  match k with
  | Num n => default Undefined (a !! n)
  | _ => Undefined
  end.

(** [a[k] = v].  For an index [k], a number below 2^32 - 1: in range the
    slot is overwritten; past the end the array grows, the skipped slots are
    holes.  With a key that is not an index ([undefined], at line 58, when a
    callback finds the game over; a number from 2^32 - 1 on) the assignment
    sets a named property of the array object and leaves the elements and
    the length alone.  An [array] here is the list of the elements: a named
    property is not recorded in it, and nothing in the script reads one
    (filter, reduce and the reads at a cell number see the elements only). *)
Definition aset (a : array) (k : value) (v : value) : array :=
  match k with
  | Num n =>
      if decide (n < length a) then <[n := v]> a
      else if (N.of_nat n <? 4294967295)%N
           then a ++ replicate (n - length a) Undefined ++ [v]
      else a
  | _ => a
  end.

(** ** The table of winning combinations (lines 7-11) *)

Definition winCombos : list (list nat) :=
  [ [0; 1; 2]; [3; 4; 5]; [6; 7; 8];
    [0; 3; 6]; [1; 4; 7]; [2; 5; 8];
    [0; 4; 8]; [6; 4; 2] ].

(** ** checkWin (lines 86-100) *)

(** [arr.reduce((a, e, i) => ..., init)] *)
Fixpoint reduce {A B : Type} (f : A → B → nat → A) (arr : list B) (i : nat) (a : A) : A :=
  match arr with
  | [] => a
  | e :: rest => reduce f rest (S i) (f a e i)
  end.

(** [plays]: the indexes the player has played, line 88. *)
Definition plays (board : array) (p : player) : list nat :=
  reduce (λ a e i, if strictEq e (Str p) then a ++ [i] else a) board 0 [].

(** [arr.indexOf(x)], -1 when absent. *)
Fixpoint indexOfFrom (arr : list nat) (x : nat) (i : Z) : Z :=
  match arr with
  | [] => (-1)%Z
  | y :: rest => if decide (y = x) then i else indexOfFrom rest x (i + 1)%Z
  end.

Definition indexOf (arr : list nat) (x : nat) : Z := indexOfFrom arr x 0%Z.

(** [arr.entries()] *)
Definition entries {A : Type} (arr : list A) : list (nat * A) :=
  imap (λ i x, (i, x)) arr.

(** The object [{ index: index, player: player }] of line 95. *)
Record gameWon := GameWon { won_index : nat; won_player : player }.

Global Instance gameWon_eq_dec : EqDecision gameWon.
Proof. solve_decision. Defined.

(** The test of line 94 for one combination. *)
Definition comboHeld (pl : list nat) (win : list nat) : bool :=
  forallb (λ elem, (-1 <? indexOf pl elem)%Z) win.

(** The [for ... of] loop of lines 92-98 with its [break]. *)
Fixpoint firstWin (pl : list nat) (p : player) (es : list (nat * list nat)) : option gameWon :=
  match es with
  | [] => None
  | (index, win) :: rest =>
      if comboHeld pl win then Some (GameWon index p) else firstWin pl p rest
  end.

Definition checkWin (board : array) (p : player) : option gameWon :=
  firstWin (plays board p) p (entries winCombos).

(** ** The store and the monad of the script *)

Abbreviation loc := nat (only parsing).

(** The texts written to the [message] element. *)
Inductive message :=
  | MsgYourTurn          (* "Your turn (X)" *)
  | MsgThinking          (* "AI is thinking..." *)
  | MsgTie               (* "It's a Tie!" *)
  | MsgYouWin            (* "You Win! ..." *)
  | MsgYouLose           (* "You Lose! ..." *)
  | MsgTurnOf (p : player). (* "Your's turn (X)" / "AI's turn (O)" *)

Record store := Store {
  heap : gmap loc array;   (* the arrays that exist *)
  origBoard : loc;         (* the global variable: a reference *)
  gameActive : bool;
  status : message;        (* innerText of the message element *)
  timers : nat             (* scheduled, not yet run AI callbacks *)
}.

Definition with_heap (h : gmap loc array) (s : store) : store :=
  Store h (origBoard s) (gameActive s) (status s) (timers s).
Definition with_origBoard (l : loc) (s : store) : store :=
  Store (heap s) l (gameActive s) (status s) (timers s).
Definition with_gameActive (b : bool) (s : store) : store :=
  Store (heap s) (origBoard s) b (status s) (timers s).
Definition with_status (m : message) (s : store) : store :=
  Store (heap s) (origBoard s) (gameActive s) m (timers s).
Definition with_timers (n : nat) (s : store) : store :=
  Store (heap s) (origBoard s) (gameActive s) (status s) n.

(** How a call ends: it returns, it throws (a TypeError nobody catches; the
    store is the one at the throw), or it recurses deeper than the fuel. *)
Inductive outcome (A : Type) :=
  | Ret (a : A) (s : store)
  | Throw (s : store)
  | Spin.
Arguments Ret {A} a s.
Arguments Throw {A} s.
Arguments Spin {A}.

Definition M (A : Type) : Type := store → outcome A.

Definition ret {A} (a : A) : M A := λ s, Ret a s.

Definition bind {A B} (m : M A) (k : A → M B) : M B :=
  λ s, match m s with
       | Ret a s' => k a s'
       | Throw s' => Throw s'
       | Spin => Spin
       end.

Declare Scope js_scope.
Delimit Scope js_scope with js.
Notation "x <- c1 ;; c2" := (bind c1 (λ x, c2))
  (at level 100, c1 at next level, right associativity) : js_scope.
Notation "c1 ;; c2" := (bind c1 (λ _, c2))
  (at level 100, right associativity) : js_scope.
Open Scope js_scope.

Definition throw {A} : M A := λ s, Throw s.
Definition spin {A} : M A := λ _, Spin.
Definition gets {A} (f : store → A) : M A := λ s, Ret (f s) s.
Definition modify (f : store → store) : M unit := λ s, Ret tt (f s).

(** Reading through a reference; a reference to nothing is [undefined], and
    using [undefined] as an array throws. *)
Definition deref (l : loc) : M array :=
  λ s, match heap s !! l with
       | Some a => Ret a s
       | None => Throw s
       end.

(** [ref[k]] *)
Definition load (l : loc) (k : value) : M value :=
  a <- deref l ;; ret (aget a k).

(** [ref[k] = v] *)
Definition assign (l : loc) (k : value) (v : value) : M unit :=
  a <- deref l ;; modify (λ s, with_heap (<[l := aset a k v]> (heap s)) s).

(** ** emptySquares and checkTie (lines 116-127) *)

(** [emptySquares] declares no parameter and reads the global. *)
Definition emptySquares : M (list value) :=
  g <- gets origBoard ;;
  a <- deref g ;;
  ret (filter (λ s, typeofNumber s = true) a).

Definition checkTie : M bool :=
  es <- emptySquares ;;
  if decide (length es = 0) then
    modify (with_gameActive false) ;; ret true
  else ret false.

(** ** minimax (lines 135-208) *)

(** A move object: [index] stays [undefined] on the terminal results. *)
Record move := Move { index : value; score : Z }.

Global Instance move_eq_dec : EqDecision move.
Proof. solve_decision. Defined.

(** [bestScore] starts at an infinity. *)
Inductive bound := NegInfinity | PosInfinity | Finite (z : Z).

(** [s > b] and [s < b] for a finite [s] *)
Definition gtBound (s : Z) (b : bound) : bool :=
  match b with
  | NegInfinity => true
  | PosInfinity => false
  | Finite z => (z <? s)%Z
  end.
Definition ltBound (s : Z) (b : bound) : bool :=
  match b with
  | NegInfinity => false
  | PosInfinity => true
  | Finite z => (s <? z)%Z
  end.

(** The two scans of lines 186-204, from position [i] on. *)
Fixpoint scanBest (player : player) (moves : list move) (i : nat)
    (bestScore : bound) (bestMove : option nat) : option nat :=
  match moves with
  | [] => bestMove
  | m :: rest =>
      if (if decide (player = aiPlayer) then gtBound (score m) bestScore
          else ltBound (score m) bestScore)
      then scanBest player rest (S i) (Finite (score m)) (Some i)
      else scanBest player rest (S i) bestScore bestMove
  end.

Definition bestMoveOf (player : player) (moves : list move) : option nat :=
  scanBest player moves 0
    (if decide (player = aiPlayer) then NegInfinity else PosInfinity) None.

(** [return moves[bestMove]].  Were [bestMove] still [undefined] the call
    would return [undefined], and both callers (lines 132, 169/173) read a
    property of the result at once, which throws. *)
Definition chosen (player : player) (moves : list move) : M move :=
  match bestMoveOf player moves with
  | Some i => match moves !! i with Some m => ret m | None => throw end
  | None => throw
  end.

(** One turn of the loop of lines 156-181, the recursive call abstracted. *)
Definition tryMove (rec : loc → player → M move)
    (newBoard : loc) (player : player) (spot : value) : M move :=
  idx <- load newBoard spot ;;
  assign newBoard spot (Str player) ;;
  result <- (if decide (player = aiPlayer) then rec newBoard huPlayer
             else rec newBoard aiPlayer) ;;
  assign newBoard spot idx ;;
  ret (Move idx (score result)).

Fixpoint collect (rec : loc → player → M move) (newBoard : loc) (player : player)
    (availSpots : list value) (moves : list move) : M (list move) :=
  match availSpots with
  | [] => ret moves
  | spot :: rest =>
      m <- tryMove rec newBoard player spot ;;
      collect rec newBoard player rest (moves ++ [m])
  end.

(** [fuel] bounds the recursion depth; the script has no such bound. The
    argument in [emptySquares(newBoard)] is dropped by the callee. *)
Fixpoint minimax (fuel : nat) (newBoard : loc) (player : player) : M move :=
  match fuel with
  | 0 => spin
  | S fuel' =>
      availSpots <- emptySquares ;;
      b <- deref newBoard ;;
      if bool_decide (is_Some (checkWin b huPlayer)) then ret (Move Undefined (-10))
      else if bool_decide (is_Some (checkWin b aiPlayer)) then ret (Move Undefined 10)
      else if decide (length availSpots = 0) then ret (Move Undefined 0)
      else
        moves <- collect (minimax fuel') newBoard player availSpots [] ;;
        chosen player moves
  end.

(** bestSpot (lines 130-133) *)
Definition bestSpot (fuel : nat) : M value :=
  g <- gets origBoard ;;
  m <- minimax fuel g aiPlayer ;;
  ret (index m).

(** ** The page *)

(** Modelled from the spec: the page (index.html, not among the sources) has
    one element per board cell, "indexed 0-8 in row-major order", and the
    script addresses a cell's element by the cell's index as id.
    [document.getElementById(k)] is [null] for any other key, and line 61
    then throws. *)
Definition hasCell (k : value) : bool :=
  match k with
  | Num n => bool_decide (n < 9)
  | _ => false
  end.

Definition getElementById (k : value) : M unit :=
  if hasCell k then ret tt else throw.

(** ** gameOver (lines 102-113) *)
Definition gameOver (w : gameWon) : M unit :=
  modify (with_gameActive false) ;;
  modify (with_status (if decide (won_player w = huPlayer) then MsgYouWin else MsgYouLose)).

(** ** turn (lines 56-83) *)
Definition turn (squareId : value) (player : player) : M unit :=
  g <- gets origBoard ;;
  assign g squareId (Str player) ;;
  getElementById squareId ;;
  b <- deref g ;;
  match checkWin b player with
  | Some w => gameOver w
  | None =>
      tie <- checkTie ;;
      if tie then
        modify (with_status MsgTie) ;; modify (with_gameActive false)
      else
        active <- gets gameActive ;;
        if active then
          modify (with_status
                    (MsgTurnOf (if decide (player = huPlayer) then aiPlayer else huPlayer)))
        else ret tt
  end.

(** [setTimeout(() => { turn(bestSpot(), aiPlayer); }, 500)]: the callback is
    only scheduled here; it runs later, as an event of its own. *)
Definition setTimeout : M unit :=
  modify (λ s, with_timers (S (timers s)) s).

(** The scheduled callback. *)
Definition aiCallback (fuel : nat) : M unit :=
  k <- bestSpot fuel ;;
  turn k aiPlayer.

(** ** turnClick (lines 38-53); [id] is [square.target.id], the id of the
    clicked cell, which as a property key is the array index. *)
Definition turnClick (id : nat) : M unit :=
  active <- gets gameActive ;;
  if active then
    g <- gets origBoard ;;
    v <- load g (Num id) ;;
    if typeofNumber v then
      turn (Num id) huPlayer ;;
      active' <- gets gameActive ;;
      if active' then
        modify (with_status MsgThinking) ;; setTimeout
      else ret tt
    else ret tt
  else ret tt.

(** ** startGame (lines 19-35) *)

(** [Array.from(Array(9).keys())] makes a new array [0, 1, ..., 8]. *)
Definition freshBoard : array := Num <$> seq 0 9.

Definition startGame : M unit :=
  modify (λ s,
    let l := fresh (dom (heap s)) in
    with_origBoard l (with_heap (<[l := freshBoard]> (heap s)) s)) ;;
  modify (with_gameActive true) ;;
  modify (with_status MsgYourTurn).

(** The store when the script starts running: no array yet, [origBoard]
    declared and not assigned, [gameActive] initialised to [true]. *)
Definition atLoad : store := Store ∅ 0 true MsgYourTurn 0.

(** The store once line 17 has run. *)
Definition storeOf {A} (o : outcome A) : option store :=
  match o with
  | Ret _ s => Some s
  | Throw s => Some s
  | Spin => None
  end.

Definition fresh_game : store := default atLoad (storeOf (startGame atLoad)).

(** ** The events of the page *)

(** After line 17 the script only runs on events: a click on a cell, or a
    scheduled callback coming due.  Each handler runs to completion; an
    exception that escapes it leaves the store as it was at the throw.  A
    callback can only run if one is pending, and pending callbacks do not
    stop clicks from being delivered. *)
Inductive step : store → store → Prop :=
  | step_click (id : nat) (s s' : store) :
      storeOf (turnClick id s) = Some s' →
      step s s'
  | step_timer (fuel : nat) (s s' : store) (n : nat) :
      timers s = S n →
      storeOf (aiCallback fuel (with_timers n s)) = Some s' →
      step s s'.

Definition reachable (s : store) : Prop := rtc step fresh_game s.

(** ** The engine as the specification words it

    Boards of cells that are Empty or MarkedBy a player, the eight WinLines
    as the specification lists them, and evaluate / chooseMove as its
    section 4.2 describes them, on board values.  These definitions are the
    yardstick the script is compared with; nothing below reads them as the
    script. *)
Module Spec.

(** Empty is [None], MarkedBy p is [Some p]. *)
Abbreviation cell := (option player).
Abbreviation board := (list (option player)).

Definition winLines : list (nat * nat * nat) :=
  [ (0, 1, 2); (3, 4, 5); (6, 7, 8);
    (0, 3, 6); (1, 4, 7); (2, 5, 8);
    (0, 4, 8); (2, 4, 6) ].

Definition marked (b : board) (p : player) (i : nat) : bool :=
  bool_decide (b !! i = Some (Some p)).

Definition completed (b : board) (p : player) (l : nat * nat * nat) : bool :=
  marked b p l.1.1 && marked b p l.1.2 && marked b p l.2.

(** The first matching WinLine in the fixed order, by its position. *)
Definition checkWin (b : board) (p : player) : option nat :=
  fst <$> list_find (λ l, completed b p l = true) winLines.

Definition hasWon (b : board) (p : player) : bool :=
  bool_decide (is_Some (checkWin b p)).

(** The Empty cells, in increasing index order. *)
Definition empties (b : board) : list nat :=
  filter (λ i, b !! i = Some None) (seq 0 (length b)).

Definition isFull (b : board) : bool := bool_decide (None ∉ b).

Definition opponent (p : player) : player :=
  match p with X => O | O => X end.

Definition place (b : board) (i : nat) (p : player) : board := <[i := Some p]> b.

(** Terminal scoring, in its priority order. *)
Definition terminal (b : board) : option Z :=
  if hasWon b huPlayer then Some (-10)%Z
  else if hasWon b aiPlayer then Some 10%Z
  else if isFull b then Some 0%Z
  else None.

(** A candidate: the cell and the score of the position it leads to. *)
Abbreviation candidate := (nat * Z)%type.

(** Strictly greater for the AI, strictly smaller for the Human. *)
Definition improves (p : player) (c best : candidate) : bool :=
  match p with
  | O => (best.2 <? c.2)%Z
  | X => (c.2 <? best.2)%Z
  end.

(** Scanning in order and keeping the first optimum encountered. *)
Definition select (p : player) (c0 : candidate) (rest : list candidate) : candidate :=
  foldl (λ best c, if improves p c best then c else best) c0 rest.

Fixpoint scoreAll (child : nat → option Z) (ks : list nat) : option (list candidate) :=
  match ks with
  | [] => Some []
  | k :: rest =>
      match child k with
      | None => None
      | Some s =>
          match scoreAll child rest with
          | None => None
          | Some cs => Some ((k, s) :: cs)
          end
      end
  end.

(** The search to a bounded depth: the chosen cell (none on a terminal
    board) and the score.  [None] only when [depth] plies do not reach the
    leaves. *)
Fixpoint search (depth : nat) (b : board) (p : player) : option (option nat * Z) :=
  match depth with
  | 0 => None
  | S d =>
      match terminal b with
      | Some s => Some (None, s)
      | None =>
          match scoreAll (λ k, snd <$> search d (place b k p) (opponent p)) (empties b) with
          | None => None
          | Some [] => Some (None, 0%Z)
          | Some (c0 :: rest) =>
              let c := select p c0 rest in Some (Some c.1, c.2)
          end
      end
  end.

(** The game tree of a board is no deeper than its number of cells. *)
Definition evaluate (b : board) (p : player) : option Z :=
  snd <$> search (S (length b)) b p.

Definition chooseMove (b : board) (p : player) : option nat :=
  search (S (length b)) b p ≫= fst.

Definition count (b : board) (p : player) : nat :=
  length (filter (λ c, c = Some p) b).

(** GameOutcome, derived from the board after a move of [mover]: the
    mover's lines first, then the tie. *)
Inductive GameOutcome :=
  | InProgress
  | Win (p : player) (line : nat)
  | Tie.

Definition outcome (b : board) (mover : player) : GameOutcome :=
  match checkWin b mover with
  | Some line => Win mover line
  | None => if isFull b then Tie else InProgress
  end.

(** GameSession and applyMove; [None] is MoveError::InvalidMove. *)
Record session := Session { cells : board; active : bool }.

Definition applyMove (ss : session) (i : nat) (p : player) : option (session * GameOutcome) :=
  if active ss && bool_decide (cells ss !! i = Some None) then
    let b' := place (cells ss) i p in
    let o := outcome b' p in
    Some (Session b' (match o with InProgress => true | _ => false end), o)
  else None.

End Spec.

(** ** The script's encoding of a board

    An Empty cell is stored as its own index, a marked cell as the mark. *)
Definition encodeCell (i : nat) (c : Spec.cell) : value :=
  match c with
  | None => Num i
  | Some p => Str p
  end.

Definition encode (b : Spec.board) : array := imap encodeCell b.

(** The representation invariant, cell by cell. *)
Definition repInv (a : array) : Prop :=
  ∀ i v, a !! i = Some v → v = Num i ∨ ∃ p, v = Str p.

(** A chosen cell as the script reports it: its index, or [undefined] when
    no cell is chosen. *)
Definition cellValue (c : option nat) : value :=
  match c with
  | Some k => Num k
  | None => Undefined
  end.

(** A move object for a search result. *)
Definition toMove (r : option nat * Z) : move := Move (cellValue r.1) r.2.

Definition lift (r : option (option nat * Z)) : M move :=
  match r with
  | Some r => ret (toMove r)
  | None => spin
  end.

(** Marks on the script's board. *)
Definition countMarks (a : array) (p : player) : nat :=
  length (filter (λ v, v = Str p) a).

(** ** Definitions used in the statements *)

(** The slot [e] of the board carries the player's mark. *)
Definition held (b : array) (p : player) (e : nat) : bool := bool_decide (b !! e = Some (Str p)).

(** A combination all of whose cells carry the player's mark. *)
Definition lineHeld (b : array) (p : player) (win : list nat) : Prop :=
  ∀ e, e ∈ win → b !! e = Some (Str p).

(** Reading a board back off an array. *)
Definition decodeValue (v : value) : Spec.cell :=
  match v with Str p => Some p | _ => None end.

(** The move object of a candidate. *)
Definition toMoveC (c : nat * Z) : move := toMove (Some c.1, c.2).

(** [x] is strictly better than [y] for the player who moves. *)
Definition better (p : player) (x y : Z) : Prop :=
  match p with
  | O => (y < x)%Z
  | X => (x < y)%Z
  end.

(** ** Examples used below *)

Definition scenarioCells : Spec.board :=
  [Some X; Some X; None; Some O; Some O; None; None; None; None].

Definition scenarioBoard : array :=
  [Str X; Str X; Num 2; Str O; Str O; Num 5; Num 6; Num 7; Num 8].

Definition scenarioStore : store := Store {[ 0 := scenarioBoard ]} 0 true (MsgTurnOf O) 0.

(** A board on which the Human holds the first row. *)
Definition wonCells : Spec.board :=
  [Some X; Some X; Some X; Some O; Some O; None; None; None; None].

Definition wonStore : store := Store {[ 0 := encode wonCells ]} 0 false MsgYouWin 0.

(** The store after [turn(i, p)] on an Empty cell [i] of board [sb]. *)
Definition afterTurn (s : store) (sb : Spec.board) (i : nat) (p : player) : store :=
  let b' := Spec.place sb i p in
  let h' := <[origBoard s := encode b']> (heap s) in
  match Spec.outcome b' p with
  | Spec.Win _ _ =>
      Store h' (origBoard s) false
            (if decide (p = huPlayer) then MsgYouWin else MsgYouLose) (timers s)
  | Spec.Tie => Store h' (origBoard s) false MsgTie (timers s)
  | Spec.InProgress =>
      Store h' (origBoard s) (gameActive s)
            (if gameActive s then MsgTurnOf (Spec.opponent p) else status s) (timers s)
  end.

(** The numbers on the global board are indexes of the array at [nb]. *)
Definition inRange (s : store) (nb : loc) : Prop :=
  ∀ (g b : array) (n : nat),
    heap s !! origBoard s = Some g → heap s !! nb = Some b → Num n ∈ g → n < length b.

(** The global board is an encoded board of nine cells. *)
Definition encoded9 (s : store) : Prop :=
  ∃ sb, length sb = 9 ∧ heap s !! origBoard s = Some (encode sb).

(** A store whose board breaks the invariant: slot 0 holds 1, slot 1 holds 0. *)
Definition brokenBoard : array :=
  [Num 1; Num 0; Str X; Str X; Str O; Str O; Str X; Str O; Str X].

Definition brokenStore : store := Store {[ 0 := brokenBoard ]} 0 true (MsgTurnOf O) 0.

(** The WinLine of the specification as the script would write it. *)
Definition tripleOf (l : nat * nat * nat) : list nat := [l.1.1; l.1.2; l.2].

Definition statusAfterClick (o : Spec.GameOutcome) : message :=
  match o with
  | Spec.Win _ _ => MsgYouWin
  | Spec.Tie => MsgTie
  | Spec.InProgress => MsgThinking
  end.

(** The scenario board as the global, and a second array, holding [b], that
    is handed to minimax in its place. *)
Definition copyStore (b : array) : store :=
  Store (<[1 := b]> {[ 0 := scenarioBoard ]}) 0 true (MsgTurnOf O) 0.

(** A board with one Empty cell, neither player having a line, and a store
    with the board as the global and an equal array beside it. *)
Definition tieCells : Spec.board :=
  [Some X; Some O; Some X; Some O; Some X; Some O; Some O; Some X; None].

Definition tieStore : store :=
  Store (<[1 := encode tieCells]> {[ 0 := encode tieCells ]}) 0 true (MsgTurnOf O) 0.

(** The position in which the copy gets caught: X at 0, 1, 5 and O at 2, 3,
    4 on the copy, while the global board still offers cells 2 and 5. *)
Definition cycleBoard : array :=
  [Str X; Str X; Str O; Str O; Str O; Str X; Num 6; Num 7; Num 8].

(** One round: a click, and the callback it schedules if it schedules one. *)
Inductive round : store → store → Prop :=
  | round_click (id : nat) (s s' : store) :
      storeOf (turnClick id s) = Some s' →
      timers s' = timers s →
      round s s'
  | round_answer (id fuel : nat) (s s1 s' : store) :
      storeOf (turnClick id s) = Some s1 →
      timers s1 = S (timers s) →
      storeOf (aiCallback fuel (with_timers (timers s) s1)) = Some s' →
      round s s'.

(** Between rounds: nothing pending, and either the game goes on with as many
    X as O and no terminal board, or it is over with as many X as O or one
    more. *)
Definition betweenRounds (s : store) : Prop :=
  ∃ sb : Spec.board,
    length sb = 9 ∧ heap s !! origBoard s = Some (encode sb) ∧ timers s = 0 ∧
    ((gameActive s = true ∧ Spec.count sb X = Spec.count sb O ∧ Spec.terminal sb = None) ∨
     (gameActive s = false ∧
      (Spec.count sb X = Spec.count sb O ∨ Spec.count sb X = S (Spec.count sb O)))).

(** The status line of a finished game, by the score minimax gives the
    board. *)
Definition finalStatus (v : Z) : message :=
  if decide (v = (-10)%Z) then MsgYouWin
  else if decide (v = 10%Z) then MsgYouLose
  else MsgTie.

(** The flag and the status line that go with a board: a game that goes on,
    or the verdict of a finished one. *)
Definition verdict (sb : Spec.board) (s : store) : Prop :=
  match Spec.terminal sb with
  | None =>
      gameActive s = true ∧
      status s ≠ MsgYouWin ∧ status s ≠ MsgYouLose ∧ status s ≠ MsgTie
  | Some v => gameActive s = false ∧ status s = finalStatus v
  end.

(** The store holds the board [sb] of nine cells, flag and status line go
    with it, and the two players do not both hold a line. *)
Definition consistent (s : store) (sb : Spec.board) : Prop :=
  length sb = 9 ∧
  heap s !! origBoard s = Some (encode sb) ∧
  verdict sb s ∧
  (Spec.hasWon sb huPlayer = true → Spec.hasWon sb aiPlayer = false).

(** The store after three clicks, on cells 0, 1 and 2, that no callback has
    come between: the Human holds the first row, the callbacks of the first
    two clicks are pending. *)
Definition threeClicks : store :=
  Store {[ 0 := [Str X; Str X; Str X; Num 3; Num 4; Num 5; Num 6; Num 7; Num 8] ]}
        0 false MsgYouWin 2.

(** The search with an early way out: the candidates after the first are
    only looked at while the best so far is not yet the best there is (10 for
    the AI, -10 for the Human).  It is used to run the search in proofs; the
    script has no such cut. *)
Definition isOptimum (p : player) (v : Z) : bool :=
  match p with
  | O => (10 <=? v)%Z
  | X => (v <=? -10)%Z
  end.

Fixpoint scanFrom (child : nat → option Z) (p : player) (ks : list nat) (best : nat * Z)
    : option (nat * Z) :=
  if isOptimum p best.2 then Some best
  else match ks with
       | [] => Some best
       | k :: ks' =>
           match child k with
           | None => None
           | Some v =>
               scanFrom child p ks' (if Spec.improves p (k, v) best then (k, v) else best)
           end
       end.

Fixpoint fsearch (d : nat) (b : Spec.board) (p : player) : option (option nat * Z) :=
  match d with
  | 0 => None
  | S d' =>
      match Spec.terminal b with
      | Some v => Some (None, v)
      | None =>
          match Spec.empties b with
          | [] => Some (None, 0%Z)
          | k0 :: ks =>
              match fsearch d' (Spec.place b k0 p) (Spec.opponent p) with
              | None => None
              | Some r0 =>
                  match scanFrom
                          (λ k, snd <$> fsearch d' (Spec.place b k p) (Spec.opponent p))
                          p ks (k0, r0.2) with
                  | None => None
                  | Some c => Some (Some c.1, c.2)
                  end
              end
          end
      end
  end.

(** A checker for the play that follows a board on which the Human is to
    move, [n] rounds deep: whichever Empty cell the Human marks, the Human
    has no line then, and if the game goes on the AI's reply (the search at
    depth 10, run with the early way out) either ends the game or leads to a board that passes again. *)
Fixpoint safe (n : nat) (sb : Spec.board) : bool :=
  match n with
  | 0 => false
  | S n' =>
      forallb (λ i,
        let b1 := Spec.place sb i huPlayer in
        match Spec.outcome b1 huPlayer with
        | Spec.Win _ _ => false
        | Spec.Tie => true
        | Spec.InProgress =>
            match fsearch 10 b1 aiPlayer with
            | Some (Some k, _) =>
                let b2 := Spec.place b1 k aiPlayer in
                match Spec.outcome b2 aiPlayer with
                | Spec.InProgress => safe n' b2
                | _ => true
                end
            | _ => false
            end
        end) (Spec.empties sb)
  end.

(** Between the rounds of a serial play: the Human holds no line, and while
    the game goes on the board passes the checker. *)
Definition humanHeldOff (s : store) : Prop :=
  reachable s ∧
  ∃ sb : Spec.board,
    heap s !! origBoard s = Some (encode sb) ∧
    Spec.hasWon sb huPlayer = false ∧
    (gameActive s = true → ∃ n, safe n sb = true).

(** The store after an accepted click on the Empty cell [id] of [sb]. *)
Definition afterClick (s : store) (sb : Spec.board) (id : nat) : store :=
  let s1 := afterTurn s sb id huPlayer in
  if gameActive s1 then with_timers (S (timers s1)) (with_status MsgThinking s1) else s1.

(** ** The table of winning combinations as arrays of the page *)

(** checkWin run over a table of combinations given to it. *)
Definition checkWinOver (table : list (list nat)) (board : array) (p : player) :
    option gameWon :=
  firstWin (plays board p) p (entries table).

(** The rows of winCombos are arrays like the board: [tableAt s ls] says
    that the arrays at the locations [ls] hold them, row by row. *)
Definition tableAt (s : store) (ls : list loc) : Prop :=
  Forall2 (λ l win, heap s !! l = Some (Num <$> win)) ls winCombos.

(** The numbers an array holds, if it holds numbers only, and the table read
    back from the arrays at [ls]. *)
Definition rowOf (a : array) : option (list nat) :=
  mapM (λ v, match v with Num n => Some n | _ => None end) a.

Definition tableOf (s : store) (ls : list loc) : option (list (list nat)) :=
  mapM (λ l, heap s !! l ≫= rowOf) ls.

(** From [s] to [s'] the global refers to the same array, and no array but
    the one at [nb] has changed. *)
Definition sameElsewhere (nb : loc) (s s' : store) : Prop :=
  origBoard s' = origBoard s ∧ ∀ l, l ≠ nb → heap s' !! l = heap s !! l.

(** [m] writes into no array but the one at [nb]. *)
Definition writesOnly {A} (nb : loc) (m : M A) : Prop :=
  ∀ s s', storeOf (m s) = Some s' → sameElsewhere nb s s'.

(** [m] writes into no array but the board. *)
Definition writesBoard {A} (m : M A) : Prop :=
  ∀ s s', storeOf (m s) = Some s' → sameElsewhere (origBoard s) s s'.

(** The store when the script starts running, the rows of the table kept at
    the locations 1 to 8; the game started from it, and a click on cell 0. *)
Definition tableStore : store :=
  Store (list_to_map (zip (seq 1 8) ((λ win : list nat, Num <$> win) <$> winCombos)))
        0 true MsgYourTurn 0.

Definition tableGame : store := default tableStore (storeOf (startGame tableStore)).

Definition tablePlayed : store := default tableGame (storeOf (turnClick 0 tableGame)).

(** ** Further examples *)

(** A board whose one Empty cell completes a line for the AI, as the global
    and in an equal array beside it. *)
Definition winCells : Spec.board :=
  [Some O; Some X; Some X; Some X; Some O; Some X; Some O; Some O; None].

Definition winStore : store :=
  Store (<[1 := encode winCells]> {[ 0 := encode winCells ]}) 0 true (MsgTurnOf O) 0.

(** The board of a fresh game as the global, and a copy of it at location 1. *)
Definition freshCopyStore : store :=
  Store (<[1 := freshBoard]> {[ 0 := freshBoard ]}) 0 true MsgYourTurn 0.

(** A game in which the Human clicks cell 0: the store after the click, and
    the store after the callback of that click has answered on cell 4. *)
Definition oneClick : store :=
  Store {[ 0 := [Str X; Num 1; Num 2; Num 3; Num 4; Num 5; Num 6; Num 7; Num 8] ]}
        0 true MsgThinking 1.

Definition roundOne : store :=
  Store {[ 0 := [Str X; Num 1; Num 2; Num 3; Str O; Num 5; Num 6; Num 7; Num 8] ]}
        0 true (MsgTurnOf X) 0.

(** The store after clicks on cells 0 and 1 that no callback has come
    between: two X, no O, two callbacks pending. *)
Definition twoClicks : store :=
  Store {[ 0 := [Str X; Str X; Num 2; Num 3; Num 4; Num 5; Num 6; Num 7; Num 8] ]}
        0 true MsgThinking 2.

(** * Properties *)

(** ** Win detection *)

Section win_detection.
Implicit Types (b : array) (p : player) (pl : list nat).

Lemma elem_of_reduce_plays p arr i0 acc x :
  x ∈ reduce (λ a e i, if strictEq e (Str p) then a ++ [i] else a) arr i0 acc
  ↔ x ∈ acc ∨ ∃ j, x = i0 + j ∧ arr !! j = Some (Str p).
Proof.
  revert i0 acc. induction arr as [|e arr IH]; intros i0 acc; simpl.
  - split; [by left|]. intros [?|(j & _ & Hj)]; [done|]. by rewrite lookup_nil in Hj.
  - rewrite IH. unfold strictEq. case_bool_decide as He.
    + subst e. rewrite elem_of_app, list_elem_of_singleton. split.
      * intros [[?| ->]|(j & -> & Hj)]; [by left| |].
        -- right. exists 0. split; [lia|done].
        -- right. exists (S j). split; [lia|done].
      * intros [?|(j & -> & Hj)]; [by left; left|].
        destruct j as [|j]; simpl in Hj.
        -- left; right. lia.
        -- right. exists j. split; [lia|done].
    + split.
      * intros [?|(j & -> & Hj)]; [by left|].
        right. exists (S j). split; [lia|done].
      * intros [?|(j & -> & Hj)]; [by left|].
        destruct j as [|j]; simpl in Hj; [congruence|].
        right. exists j. split; [lia|done].
Qed.

(** [plays] holds exactly the indexes whose slot is the player's mark. *)
Lemma elem_of_plays b p i : i ∈ plays b p ↔ b !! i = Some (Str p).
Proof.
  unfold plays. rewrite elem_of_reduce_plays. split.
  - intros [H|(j & -> & Hj)]; [by apply not_elem_of_nil in H|done].
  - intros H. right. by exists i.
Qed.

Lemma indexOfFrom_range pl x i :
  (0 ≤ i)%Z →
  (x ∈ pl ∧ (i ≤ indexOfFrom pl x i)%Z) ∨ ((x ∉ pl) ∧ indexOfFrom pl x i = (-1)%Z).
Proof.
  revert i. induction pl as [|y pl IH]; intros i Hi; simpl.
  - right. split; [apply not_elem_of_nil|done].
  - destruct (decide (y = x)) as [->|Hne].
    + left. split; [left|lia].
    + destruct (IH (i + 1)%Z ltac:(lia)) as [[Hin Hle]|[Hnin Heq]].
      * left. split; [by right|lia].
      * right. split; [|done]. rewrite not_elem_of_cons. by split.
Qed.

(** [plays.indexOf(elem) > -1] says that [elem] is among the plays. *)
Lemma indexOf_found pl x : (-1 <? indexOf pl x)%Z = true ↔ x ∈ pl.
Proof.
  unfold indexOf. rewrite Z.ltb_lt.
  destruct (indexOfFrom_range pl x 0 ltac:(lia)) as [[Hin Hle]|[Hnin Heq]].
  - split; [done|lia].
  - split; [lia|done].
Qed.

Lemma indexOf_plays b p e : (-1 <? indexOf (plays b p) e)%Z = held b p e.
Proof.
  apply eq_true_iff_eq. rewrite indexOf_found, elem_of_plays.
  unfold held. by rewrite bool_decide_eq_true.
Qed.

Lemma comboHeld_plays b p win : comboHeld (plays b p) win = forallb (held b p) win.
Proof.
  unfold comboHeld. induction win as [|e win IH]; simpl; [done|].
  by rewrite indexOf_plays, IH.
Qed.

Lemma comboHeld_lineHeld b p win :
  comboHeld (plays b p) win = true ↔ lineHeld b p win.
Proof.
  rewrite comboHeld_plays, forallb_forall. unfold lineHeld, held.
  split; intros H e He.
  - eapply bool_decide_eq_true_1, H. by apply list_elem_of_In.
  - apply bool_decide_eq_true_2, H. by apply list_elem_of_In.
Qed.

(** The loop with its [break] is a search for the first entry that passes. *)
Lemma firstWin_find pl p es :
  firstWin pl p es =
  (λ r, GameWon r.2.1 p) <$> list_find (λ e, comboHeld pl e.2 = true) es.
Proof.
  induction es as [|[index win] es IH]; simpl; [done|].
  case_decide as Hc; simpl in Hc; rewrite ?Hc; simpl; [done|].
  apply not_true_is_false in Hc. rewrite Hc, IH.
  by destruct (list_find _ es) as [[? [? ?]]|].
Qed.

Lemma entries_lookup {A} (l : list A) i e :
  entries l !! i = Some e ↔ e.1 = i ∧ l !! i = Some e.2.
Proof.
  unfold entries. rewrite list_lookup_imap. destruct (l !! i) as [x|]; simpl.
  - destruct e as [j y]; simpl. split; [by intros [= <- <-]|by intros [-> [= ->]]].
  - split; [done|by intros [_ ?]].
Qed.

Lemma checkWin_Some b p w :
  checkWin b p = Some w ↔
  won_player w = p ∧
  ∃ win, winCombos !! won_index w = Some win ∧ lineHeld b p win ∧
         ∀ j win', j < won_index w → winCombos !! j = Some win' → ¬ lineHeld b p win'.
Proof.
  unfold checkWin. rewrite firstWin_find. split.
  - intros H. apply fmap_Some in H as ([k [idx win]] & Hf & ->); simpl.
    apply list_find_Some in Hf as (Hk & Hheld & Hfirst).
    apply entries_lookup in Hk as [Hidx Hk]; simpl in *. subst idx.
    split; [done|]. exists win. split; [done|]. split; [by apply comboHeld_lineHeld|].
    intros j win' Hj Hw' Hl. apply (Hfirst j (j, win')); [|done|].
    + by apply entries_lookup.
    + simpl. by apply comboHeld_lineHeld.
  - intros [Hp (win & Hk & Hheld & Hfirst)]. destruct w as [k q]; cbn [won_index won_player] in *. subst q.
    apply fmap_Some. exists (k, (k, win)). split; [|done].
    apply list_find_Some. split; [by apply entries_lookup|].
    split; [by apply comboHeld_lineHeld|].
    intros j [idx win'] Hj Hlt Hc. apply entries_lookup in Hj as [_ Hj]; cbn [fst snd] in *.
    apply (Hfirst j win'); [done..|]. by apply comboHeld_lineHeld.
Qed.

Lemma checkWin_is_Some b p :
  is_Some (checkWin b p) ↔ ∃ i win, winCombos !! i = Some win ∧ lineHeld b p win.
Proof.
  unfold checkWin. rewrite firstWin_find, fmap_is_Some. split.
  - intros [[k [idx win]] Hf]. apply list_find_Some in Hf as (Hk & Hheld & _).
    apply entries_lookup in Hk as [_ Hk]; simpl in *.
    exists k, win. split; [done|]. by apply comboHeld_lineHeld.
  - intros (i & win & Hi & Hheld).
    apply (list_find_elem_of _ _ (i, win)).
    + apply list_elem_of_lookup. exists i. by apply entries_lookup.
    + simpl. by apply comboHeld_lineHeld.
Qed.

End win_detection.

(** ** The encoding *)

Lemma filter_ext_elem {A} (P Q : A → Prop) `{∀ x, Decision (P x)} `{∀ x, Decision (Q x)}
    (l : list A) :
  (∀ x, x ∈ l → (P x ↔ Q x)) → filter P l = filter Q l.
Proof.
  induction l as [|x l IH]; intros Hext; [done|].
  rewrite !filter_cons, IH by (intros y Hy; apply Hext; by right).
  destruct (decide (P x)) as [HP|HP], (decide (Q x)) as [HQ|HQ]; try done.
  - destruct HQ. apply Hext; [left|done].
  - destruct HP. apply Hext; [left|done].
Qed.

Section encoding.
Implicit Types (sb : Spec.board) (p : player).

Lemma encode_lookup sb i : encode sb !! i = encodeCell i <$> sb !! i.
Proof. apply list_lookup_imap. Qed.

Lemma length_encode sb : length (encode sb) = length sb.
Proof. apply length_imap. Qed.

Lemma encode_app sb c : encode (sb ++ [c]) = encode sb ++ [encodeCell (length sb) c].
Proof.
  unfold encode. rewrite imap_app. simpl. by rewrite Nat.add_0_r.
Qed.

Lemma encode_repInv sb : repInv (encode sb).
Proof.
  intros i v. rewrite encode_lookup. destruct (sb !! i) as [[p|]|]; simpl; intros [= <-].
  - right. by exists p.
  - by left.
Qed.

Lemma repInv_encode a : repInv a → a = encode (decodeValue <$> a).
Proof.
  intros Hinv. apply list_eq. intros i.
  rewrite encode_lookup, list_lookup_fmap.
  destruct (a !! i) as [v|] eqn:Hv; simpl; [|done].
  destruct (Hinv i v Hv) as [->|[p ->]]; done.
Qed.

Lemma held_encode sb p e : held (encode sb) p e = Spec.marked sb p e.
Proof.
  unfold held, Spec.marked. rewrite encode_lookup. apply bool_decide_ext.
  destruct (sb !! e) as [[q|]|]; simpl; split; congruence.
Qed.

Lemma aget_encode_empty sb k : sb !! k = Some None → aget (encode sb) (Num k) = Num k.
Proof. intros Hk. simpl. by rewrite encode_lookup, Hk. Qed.

Lemma encode_insert sb k c :
  <[k := encodeCell k c]> (encode sb) = encode (<[k := c]> sb).
Proof.
  apply list_eq. intros i. rewrite encode_lookup.
  destruct (decide (k = i)) as [->|Hne].
  - destruct (decide (i < length sb)) as [Hlt|Hge].
    + rewrite !list_lookup_insert_eq by (by rewrite ?length_encode). done.
    + rewrite !list_insert_ge by (rewrite ?length_encode; lia).
      by rewrite encode_lookup.
  - rewrite !list_lookup_insert_ne by done. by rewrite encode_lookup.
Qed.

(** Marking an Empty cell of the array marks it on the board. *)
Lemma aset_encode_place sb k p :
  k < length sb → aset (encode sb) (Num k) (Str p) = encode (Spec.place sb k p).
Proof.
  intros Hk. unfold aset. rewrite decide_True by (by rewrite length_encode).
  apply (encode_insert sb k (Some p)).
Qed.

(** Writing the index back into the slot empties the cell again. *)
Lemma aset_encode_undo sb k p :
  sb !! k = Some None →
  aset (encode (Spec.place sb k p)) (Num k) (Num k) = encode sb.
Proof.
  intros Hk. unfold aset, Spec.place.
  rewrite decide_True
    by (rewrite length_encode, length_insert; by eapply lookup_lt_Some).
  rewrite (encode_insert _ k None), list_insert_insert_eq.
  by rewrite list_insert_id.
Qed.

Lemma elem_of_empties sb k : k ∈ Spec.empties sb ↔ sb !! k = Some None.
Proof.
  unfold Spec.empties. rewrite list_elem_of_filter, elem_of_seq. split; [by intros [? _]|].
  intros Hk. split; [done|]. apply lookup_lt_Some in Hk. lia.
Qed.

Lemma empties_app sb c :
  Spec.empties (sb ++ [c]) =
  Spec.empties sb ++ (if decide (c = None) then [length sb] else []).
Proof.
  unfold Spec.empties. rewrite length_app. simpl.
  rewrite Nat.add_1_r, seq_S, filter_app. simpl. f_equal.
  - apply filter_ext_elem. intros i Hi. apply elem_of_seq in Hi.
    by rewrite lookup_app_l by lia.
  - rewrite filter_cons, filter_nil.
    rewrite list_lookup_middle by done.
    destruct (decide (c = None)) as [->|Hc].
    + by rewrite decide_True.
    + rewrite decide_False; [done|]. congruence.
Qed.

(** The numbers left on the array are the Empty cells, in index order. *)
Lemma filter_encode sb :
  filter (λ s, typeofNumber s = true) (encode sb) = Num <$> Spec.empties sb.
Proof.
  induction sb as [|c sb IH] using rev_ind; [done|].
  rewrite encode_app, filter_app, IH, empties_app, fmap_app. f_equal.
  rewrite filter_cons, filter_nil. destruct c as [p|]; simpl; done.
Qed.

Lemma isFull_empties sb : Spec.isFull sb = bool_decide (Spec.empties sb = []).
Proof.
  unfold Spec.isFull. apply bool_decide_ext. split.
  - intros Hfull. destruct (Spec.empties sb) as [|k ks] eqn:He; [done|].
    assert (k ∈ Spec.empties sb) as Hk by (rewrite He; left).
    apply elem_of_empties in Hk. destruct Hfull.
    apply list_elem_of_lookup. by exists k.
  - intros He Hin. apply list_elem_of_lookup in Hin as [k Hk].
    apply elem_of_empties in Hk. rewrite He in Hk. by apply not_elem_of_nil in Hk.
Qed.

Lemma empties_place sb k p :
  Spec.empties (Spec.place sb k p) = filter (λ i, i ≠ k) (Spec.empties sb).
Proof.
  unfold Spec.empties, Spec.place. rewrite length_insert.
  rewrite list_filter_filter. apply filter_ext_elem. intros i Hi.
  apply elem_of_seq in Hi. destruct (decide (k = i)) as [->|Hne].
  - rewrite list_lookup_insert_eq by lia. split; [done|]. by intros [? _].
  - rewrite list_lookup_insert_ne by done. split; [|by intros [_ ?]].
    intros ?. split; [congruence|done].
Qed.

Lemma empties_place_lt sb k p :
  sb !! k = Some None →
  length (Spec.empties (Spec.place sb k p)) < length (Spec.empties sb).
Proof.
  intros Hk. rewrite empties_place.
  apply (length_filter_lt _ _ k); [by apply elem_of_empties|]. by intros ?.
Qed.

(** Win detection of the script on an encoded board is the specification's,
    position of the line included. *)
Lemma checkWin_encode sb p :
  checkWin (encode sb) p = (λ i, GameWon i p) <$> Spec.checkWin sb p.
Proof.
  unfold checkWin, Spec.checkWin, Spec.winLines, Spec.completed.
  change (entries winCombos) with
    [ (0, [0; 1; 2]); (1, [3; 4; 5]); (2, [6; 7; 8]); (3, [0; 3; 6]);
      (4, [1; 4; 7]); (5, [2; 5; 8]); (6, [0; 4; 8]); (7, [6; 4; 2]) ].
  cbn [firstWin fst snd list_find].
  rewrite !comboHeld_plays. cbn [forallb]. rewrite !held_encode.
  destruct (Spec.marked sb p 0), (Spec.marked sb p 1), (Spec.marked sb p 2),
    (Spec.marked sb p 3), (Spec.marked sb p 4), (Spec.marked sb p 5),
    (Spec.marked sb p 6), (Spec.marked sb p 7), (Spec.marked sb p 8); reflexivity.
Qed.

Lemma checkWin_encode_is_Some sb p :
  bool_decide (is_Some (checkWin (encode sb) p)) = Spec.hasWon sb p.
Proof.
  unfold Spec.hasWon. apply bool_decide_ext. rewrite checkWin_encode.
  by rewrite fmap_is_Some.
Qed.

End encoding.

(** ** Running the monad *)

Section running.
Implicit Types (s : store) (l : loc) (a : array).

Lemma with_heap_same s : with_heap (heap s) s = s.
Proof. by destruct s. Qed.

Lemma deref_Ret l s a : heap s !! l = Some a → deref l s = Ret a s.
Proof. intros H. unfold deref. by rewrite H. Qed.

Lemma load_Ret l k s a : heap s !! l = Some a → load l k s = Ret (aget a k) s.
Proof. intros H. unfold load, bind. by rewrite (deref_Ret _ _ _ H). Qed.

Lemma assign_Ret l k v s a :
  heap s !! l = Some a →
  assign l k v s = Ret tt (with_heap (<[l := aset a k v]> (heap s)) s).
Proof. intros H. unfold assign, bind. by rewrite (deref_Ret _ _ _ H). Qed.

Lemma emptySquares_Ret s a :
  heap s !! origBoard s = Some a →
  emptySquares s = Ret (filter (λ v, typeofNumber v = true) a) s.
Proof. intros H. unfold emptySquares, bind, gets. by rewrite (deref_Ret _ _ _ H). Qed.

(** Writing one array after another at the same location, the second write
    putting back what the location held. *)
Lemma with_heap_restore l a a' s :
  heap s !! l = Some a →
  with_heap (<[l := a]> (heap (with_heap (<[l := a']> (heap s)) s)))
            (with_heap (<[l := a']> (heap s)) s) = s.
Proof.
  intros H. destruct s as [h g act msg n]; simpl in *. unfold with_heap; simpl.
  by rewrite insert_insert_eq, insert_id.
Qed.

End running.

(** ** The selection scan *)

Section selection.
Implicit Types (p : player) (c : nat * Z).

Lemma scan_test p c best :
  (if decide (p = aiPlayer) then gtBound (score (toMoveC c)) (Finite best.2)
   else ltBound (score (toMoveC c)) (Finite best.2)) = Spec.improves p c best.
Proof. by destruct p. Qed.

Lemma select_cons p c0 c (rest : list (nat * Z)) :
  Spec.select p c0 (c :: rest) =
  Spec.select p (if Spec.improves p c c0 then c else c0) rest.
Proof. done. Qed.

Lemma scanBest_select p (rest : list (nat * Z)) (pre : list move) cur j :
  (pre ++ (toMoveC <$> rest)) !! j = Some (toMoveC cur) →
  j < length pre →
  ∃ j', scanBest p (toMoveC <$> rest) (length pre) (Finite cur.2) (Some j) = Some j' ∧
        (pre ++ (toMoveC <$> rest)) !! j' = Some (toMoveC (Spec.select p cur rest)).
Proof.
  revert pre cur j. induction rest as [|c rest IH]; intros pre cur j Hj Hlt.
  - exists j. by split.
  - rewrite fmap_cons in Hj |- *. cbn [scanBest]. rewrite scan_test.
    rewrite cons_middle, app_assoc in Hj |- *.
    rewrite select_cons. destruct (Spec.improves p c cur).
    + specialize (IH (pre ++ [toMoveC c]) c (length pre)).
      rewrite length_app, Nat.add_1_r in IH. apply IH; [|lia].
      rewrite lookup_app_l by (rewrite length_app; simpl; lia).
      by rewrite list_lookup_middle.
    + specialize (IH (pre ++ [toMoveC c]) cur j).
      rewrite length_app, Nat.add_1_r in IH. apply IH; [done|lia].
Qed.

(** On a non-empty list of candidates the two scans of the script return
    the candidate that a left-to-right scan keeping the first optimum
    selects. *)
Lemma chosen_select p c0 (rest : list (nat * Z)) s :
  chosen p (toMoveC <$> (c0 :: rest)) s = Ret (toMoveC (Spec.select p c0 rest)) s.
Proof.
  unfold chosen, bestMoveOf. rewrite fmap_cons. cbn [scanBest].
  assert ((if decide (p = aiPlayer)
           then gtBound (score (toMoveC c0))
                  (if decide (p = aiPlayer) then NegInfinity else PosInfinity)
           else ltBound (score (toMoveC c0))
                  (if decide (p = aiPlayer) then NegInfinity else PosInfinity)) = true)
    as -> by (by destruct p).
  destruct (scanBest_select p rest [toMoveC c0] c0 0) as (j' & Hscan & Hj');
    [done|simpl; lia|].
  cbn [length] in Hscan. change (score (toMoveC c0)) with c0.2. rewrite Hscan.
  change (toMoveC c0 :: (toMoveC <$> rest)) with ([toMoveC c0] ++ (toMoveC <$> rest)).
  by rewrite Hj'.
Qed.

End selection.

(** ** The search on the live board is the specification's search *)

Section search_refinement.
Implicit Types (s : store) (sb : Spec.board) (p : player).

Lemma rec_opponent (rec : loc → player → M move) l p :
  (if decide (p = aiPlayer) then rec l huPlayer else rec l aiPlayer)
  = rec l (Spec.opponent p).
Proof. by destruct p. Qed.

Lemma scoreAll_length child ks cs :
  Spec.scoreAll child ks = Some cs → length cs = length ks.
Proof.
  revert cs. induction ks as [|k ks IH]; intros cs; simpl; [by intros [= <-]|].
  destruct (child k); [|done]. destruct (Spec.scoreAll child ks); [|done].
  intros [= <-]. simpl. by rewrite (IH _ eq_refl).
Qed.

End search_refinement.

(** One level of the recursion, the calls below it taken as given: they do
    what the specification's search does at some depth and hand back the
    store. *)
Section one_level.
Variable rec : loc → player → M move.
Variable depth : nat.
Hypothesis rec_search :
  ∀ (s : store) (sb : Spec.board) (p : player),
    heap s !! origBoard s = Some (encode sb) →
    rec (origBoard s) p s = lift (Spec.search depth sb p) s.
Implicit Types (s : store) (sb : Spec.board) (p : player).

(** One turn of the loop on an Empty cell [k]: the mark is placed, the
    position searched, and the cell put back. *)
Lemma tryMove_level s sb p k :
  heap s !! origBoard s = Some (encode sb) →
  sb !! k = Some None →
  tryMove rec (origBoard s) p (Num k) s =
  match Spec.search depth (Spec.place sb k p) (Spec.opponent p) with
  | Some r => Ret (Move (Num k) r.2) s
  | None => Spin
  end.
Proof.
  intros Hs Hk. unfold tryMove, bind.
  rewrite (load_Ret _ _ _ _ Hs), (aget_encode_empty _ _ Hk).
  rewrite (assign_Ret _ _ _ _ _ Hs).
  rewrite aset_encode_place by (by eapply lookup_lt_Some).
  rewrite rec_opponent.
  set (s1 := with_heap _ s).
  assert (heap s1 !! origBoard s1 = Some (encode (Spec.place sb k p))) as Hs1
    by (unfold s1; simpl; apply lookup_insert_eq).
  change (origBoard s) with (origBoard s1).
  rewrite (rec_search s1 _ _ Hs1).
  destruct (Spec.search depth (Spec.place sb k p) (Spec.opponent p)) as [r|]; simpl; [|done].
  unfold ret at 1.
  rewrite (assign_Ret _ _ _ _ _ Hs1), (aset_encode_undo _ _ _ Hk).
  unfold s1. by rewrite (with_heap_restore _ _ _ _ Hs).
Qed.

(** The whole loop: one candidate per spot, in the order of the spots. *)
Lemma collect_level s sb p ks acc :
  heap s !! origBoard s = Some (encode sb) →
  (∀ k, k ∈ ks → sb !! k = Some None) →
  collect rec (origBoard s) p (Num <$> ks) acc s =
  match Spec.scoreAll
          (λ k, snd <$> Spec.search depth (Spec.place sb k p) (Spec.opponent p)) ks with
  | Some cs => Ret (acc ++ (toMoveC <$> cs)) s
  | None => Spin
  end.
Proof.
  intros Hs. revert acc. induction ks as [|k ks IHks]; intros acc Hks.
  - simpl. by rewrite app_nil_r.
  - rewrite fmap_cons. cbn [collect Spec.scoreAll]. unfold bind at 1.
    rewrite (tryMove_level _ _ _ _ Hs) by (apply Hks; left).
    destruct (Spec.search depth (Spec.place sb k p) (Spec.opponent p)) as [r|]; simpl; [|done].
    rewrite IHks by (intros k' Hk'; apply Hks; by right).
    destruct (Spec.scoreAll _ ks) as [cs|]; [|done].
    by rewrite fmap_cons, <- app_assoc.
Qed.

End one_level.

Section minimax_on_global.
Implicit Types (s : store) (sb : Spec.board) (p : player).

(** With the global board passed as the argument, minimax at any fuel does
    what the specification's search does at that depth, and hands back
    the store it was given. *)
Lemma minimax_search fuel s sb p :
  heap s !! origBoard s = Some (encode sb) →
  minimax fuel (origBoard s) p s = lift (Spec.search fuel sb p) s.
Proof.
  revert s sb p. induction fuel as [|fuel IH]; intros s sb p Hs; [done|].
  cbn [minimax Spec.search]. unfold bind at 1.
  rewrite (emptySquares_Ret _ _ Hs), filter_encode.
  unfold bind at 1. rewrite (deref_Ret _ _ _ Hs).
  rewrite !checkWin_encode_is_Some. unfold Spec.terminal.
  destruct (Spec.hasWon sb huPlayer); [done|].
  destruct (Spec.hasWon sb aiPlayer); [done|].
  rewrite isFull_empties, length_fmap.
  destruct (Spec.empties sb) as [|k0 ks0] eqn:He; [done|].
  rewrite bool_decide_eq_false_2 by done.
  rewrite decide_False by (simpl; lia).
  unfold bind. rewrite (collect_level (minimax fuel) fuel IH _ _ _ _ _ Hs)
    by (intros k Hk; apply elem_of_empties; by rewrite He).
  destruct (Spec.scoreAll _ (k0 :: ks0)) as [[|c0 rest]|] eqn:Hall; [| |done].
  - apply scoreAll_length in Hall. simpl in Hall. lia.
  - rewrite app_nil_l. by rewrite chosen_select.
Qed.

Lemma tryMove_search fuel s sb p k :
  heap s !! origBoard s = Some (encode sb) →
  sb !! k = Some None →
  tryMove (minimax fuel) (origBoard s) p (Num k) s =
  match Spec.search fuel (Spec.place sb k p) (Spec.opponent p) with
  | Some r => Ret (Move (Num k) r.2) s
  | None => Spin
  end.
Proof. apply tryMove_level. intros s' sb' p'. apply minimax_search. Qed.

Lemma collect_search fuel s sb p ks acc :
  heap s !! origBoard s = Some (encode sb) →
  (∀ k, k ∈ ks → sb !! k = Some None) →
  collect (minimax fuel) (origBoard s) p (Num <$> ks) acc s =
  match Spec.scoreAll
          (λ k, snd <$> Spec.search fuel (Spec.place sb k p) (Spec.opponent p)) ks with
  | Some cs => Ret (acc ++ (toMoveC <$> cs)) s
  | None => Spin
  end.
Proof. apply collect_level. intros s' sb' p'. apply minimax_search. Qed.

End minimax_on_global.

(** ** Facts about the specification's search *)

Section search_facts.
Implicit Types (sb : Spec.board) (p : player) (d : nat).

Lemma scoreAll_is_Some child ks :
  (∀ k, k ∈ ks → is_Some (child k)) → is_Some (Spec.scoreAll child ks).
Proof.
  induction ks as [|k ks IH]; intros Hks; simpl; [by eexists|].
  destruct (Hks k) as [v ->]; [left|].
  destruct IH as [cs ->]; [|by eexists]. intros k' Hk'. apply Hks. by right.
Qed.

Lemma scoreAll_weaken (child child' : nat → option Z) ks cs :
  (∀ k v, k ∈ ks → child k = Some v → child' k = Some v) →
  Spec.scoreAll child ks = Some cs → Spec.scoreAll child' ks = Some cs.
Proof.
  revert cs. induction ks as [|k ks IH]; intros cs Hext; simpl; [done|].
  destruct (child k) as [v|] eqn:Hk; [|done].
  rewrite (Hext k v) by (done || left).
  destruct (Spec.scoreAll child ks) as [cs'|]; [|done].
  rewrite (IH cs') by (done || intros k' v' Hk'; apply Hext; by right). done.
Qed.

Lemma scoreAll_elem child ks cs c :
  Spec.scoreAll child ks = Some cs → c ∈ cs → c.1 ∈ ks ∧ child c.1 = Some c.2.
Proof.
  revert cs. induction ks as [|k ks IH]; intros cs; simpl.
  - intros [= <-] Hc. by apply not_elem_of_nil in Hc.
  - destruct (child k) as [v|] eqn:Hk; [|done].
    destruct (Spec.scoreAll child ks) as [cs'|]; [|done].
    intros [= <-] Hc. apply elem_of_cons in Hc as [->|Hc]; simpl.
    + split; [left|done].
    + destruct (IH cs' eq_refl Hc). split; [by right|done].
Qed.

Lemma scoreAll_fst child ks cs :
  Spec.scoreAll child ks = Some cs → fst <$> cs = ks.
Proof.
  revert cs. induction ks as [|k ks IH]; intros cs; simpl; [by intros [= <-]|].
  destruct (child k); [|done]. destruct (Spec.scoreAll child ks); [|done].
  intros [= <-]. rewrite fmap_cons. simpl. by rewrite (IH _ eq_refl).
Qed.

Lemma select_elem p c0 rest : Spec.select p c0 rest ∈ c0 :: rest.
Proof.
  revert c0. induction rest as [|c rest IH]; intros c0; [left|].
  rewrite select_cons. destruct (Spec.improves p c c0).
  - right. apply IH.
  - specialize (IH c0). apply elem_of_cons in IH as [Heq|?].
    + rewrite Heq. left.
    + by right; right.
Qed.

(** Enough depth always reaches the leaves. *)
Lemma search_total d sb p :
  length (Spec.empties sb) < d → is_Some (Spec.search d sb p).
Proof.
  revert sb p. induction d as [|d IH]; intros sb p Hd; [lia|].
  cbn [Spec.search]. destruct (Spec.terminal sb); [by eexists|].
  destruct (scoreAll_is_Some
    (λ k, snd <$> Spec.search d (Spec.place sb k p) (Spec.opponent p)) (Spec.empties sb))
    as [cs ->].
  - intros k Hk. apply fmap_is_Some, IH. apply elem_of_empties in Hk.
    pose proof (empties_place_lt sb k p Hk). lia.
  - destruct cs; by eexists.
Qed.

(** More depth does not change a result. *)
Lemma search_mono d d' sb p r :
  Spec.search d sb p = Some r → d ≤ d' → Spec.search d' sb p = Some r.
Proof.
  revert d' sb p r. induction d as [|d IH]; intros d' sb p r; [done|].
  destruct d' as [|d']; [lia|]. intros Hr Hle. cbn [Spec.search] in *.
  destruct (Spec.terminal sb); [done|].
  destruct (Spec.scoreAll _ (Spec.empties sb)) as [cs|] eqn:Hcs; [|done].
  erewrite scoreAll_weaken; [exact Hr| |exact Hcs].
  intros k v _ Hk. simpl in Hk. apply fmap_Some in Hk as (r' & Hr' & ->).
  rewrite (IH d' _ _ r') by (done || lia). done.
Qed.

(** Scores are the three flat terminal values, at any depth. *)
Lemma search_score d sb p r :
  Spec.search d sb p = Some r → r.2 ∈ [(-10)%Z; 0%Z; 10%Z].
Proof.
  revert sb p r. induction d as [|d IH]; intros sb p r; [done|].
  cbn [Spec.search]. unfold Spec.terminal.
  destruct (Spec.hasWon sb huPlayer); [intros [= <-]; set_solver|].
  destruct (Spec.hasWon sb aiPlayer); [intros [= <-]; set_solver|].
  destruct (Spec.isFull sb); [intros [= <-]; set_solver|].
  destruct (Spec.scoreAll _ (Spec.empties sb)) as [[|c0 rest]|] eqn:Hcs;
    [intros [= <-]; set_solver| |done].
  intros [= <-]. cbn [snd].
  destruct (scoreAll_elem _ _ _ _ Hcs (select_elem p c0 rest)) as [_ Hc].
  simpl in Hc. apply fmap_Some in Hc as (r' & Hr' & ->). by eapply IH.
Qed.

(** A chosen cell is an Empty cell of the board; none is chosen exactly on
    the terminal boards. *)
Lemma search_cell d sb p k v :
  Spec.search d sb p = Some (Some k, v) → sb !! k = Some None.
Proof.
  destruct d as [|d]; [done|]. cbn [Spec.search].
  destruct (Spec.terminal sb); [done|].
  destruct (Spec.scoreAll _ (Spec.empties sb)) as [[|c0 rest]|] eqn:Hcs; [done| |done].
  intros [= <- _].
  destruct (scoreAll_elem _ _ _ _ Hcs (select_elem p c0 rest)) as [Hk _].
  by apply elem_of_empties.
Qed.

Lemma terminal_None_empties sb : Spec.terminal sb = None → Spec.empties sb ≠ [].
Proof.
  unfold Spec.terminal. destruct (Spec.hasWon sb huPlayer); [done|].
  destruct (Spec.hasWon sb aiPlayer); [done|].
  rewrite isFull_empties. case_bool_decide; done.
Qed.

Lemma search_terminal_None d sb p v :
  Spec.search d sb p = Some (None, v) → Spec.terminal sb = Some v.
Proof.
  destruct d as [|d]; [done|]. cbn [Spec.search].
  destruct (Spec.terminal sb) eqn:Ht; [by intros [= <-]|].
  destruct (Spec.scoreAll _ (Spec.empties sb)) as [[|c0 rest]|] eqn:Hcs; [|done..].
  apply scoreAll_length in Hcs. apply terminal_None_empties in Ht.
  destruct (Spec.empties sb); simpl in *; [done|lia].
Qed.

End search_facts.

(** ** What minimax does on the board it is given, when that is the global one *)

Section minimax_facts.
Implicit Types (s : store) (sb : Spec.board) (p : player).

Lemma minimax_Ret fuel s sb p :
  heap s !! origBoard s = Some (encode sb) →
  length (Spec.empties sb) < fuel →
  ∃ r, Spec.search (S (length (Spec.empties sb))) sb p = Some r ∧
       minimax fuel (origBoard s) p s = Ret (toMove r) s.
Proof.
  intros Hs Hfuel.
  destruct (search_total (S (length (Spec.empties sb))) sb p) as [r Hr]; [lia|].
  exists r. split; [done|].
  rewrite (minimax_search _ _ _ _ Hs), (search_mono _ fuel _ _ _ Hr) by lia. done.
Qed.

Lemma length_empties sb : length (Spec.empties sb) ≤ length sb.
Proof.
  unfold Spec.empties. etrans; [apply length_filter|]. by rewrite length_seq.
Qed.

(** bestSpot is the specification's chooseMove for the AI. *)
Lemma bestSpot_chooseMove fuel s sb :
  heap s !! origBoard s = Some (encode sb) →
  length (Spec.empties sb) < fuel →
  bestSpot fuel s = Ret (cellValue (Spec.chooseMove sb aiPlayer)) s.
Proof.
  intros Hs Hfuel. unfold bestSpot, bind, gets.
  destruct (minimax_Ret fuel s sb aiPlayer Hs Hfuel) as (r & Hr & ->).
  unfold Spec.chooseMove.
  rewrite (search_mono _ (S (length sb)) _ _ _ Hr) by (pose proof (length_empties sb); lia).
  done.
Qed.

Lemma minimax_Ret_inv fuel s sb p m s' :
  heap s !! origBoard s = Some (encode sb) →
  minimax fuel (origBoard s) p s = Ret m s' →
  s' = s ∧ ∃ r, Spec.search fuel sb p = Some r ∧ m = toMove r.
Proof.
  intros Hs. rewrite (minimax_search _ _ _ _ Hs).
  destruct (Spec.search fuel sb p) as [r|]; simpl; [|done].
  intros [= <- <-]. split; [done|]. by exists r.
Qed.


End minimax_facts.

(** ** minimax hands back the store, whatever array it is given *)

Section frame.
Implicit Types (s : store) (a b g : array) (p : player).

Lemma aset_in_range b n v : n < length b → aset b (Num n) v = <[n := v]> b.
Proof. intros Hn. unfold aset. by rewrite decide_True. Qed.

Lemma inRange_assign s nb n p b :
  inRange s nb → heap s !! nb = Some b → n < length b →
  inRange (with_heap (<[nb := <[n := Str p]> b]> (heap s)) s) nb.
Proof.
  intros Hin Hb Hn g1 b1 m. simpl. rewrite lookup_insert_eq. intros Hg1 [= <-] Hm.
  rewrite length_insert. destruct (decide (nb = origBoard s)) as [Heq|Hne].
  - rewrite <- Heq, lookup_insert_eq in Hg1. injection Hg1 as <-.
    apply list_elem_of_lookup in Hm as [i Hi].
    apply list_lookup_insert_Some in Hi as [(_ & ? & _)|[_ Hi]]; [done|].
    apply (Hin b b m); [by rewrite <- Heq|done|]. apply list_elem_of_lookup. by exists i.
  - rewrite lookup_insert_ne in Hg1 by done. by apply (Hin g1 b m).
Qed.

Lemma tryMove_frame (rec : loc → player → M move) nb p n s m s' :
  (∀ q s1 m1 s1', inRange s1 nb → rec nb q s1 = Ret m1 s1' → s1' = s1) →
  inRange s nb →
  (∀ b, heap s !! nb = Some b → n < length b) →
  tryMove rec nb p (Num n) s = Ret m s' → s' = s.
Proof.
  intros Hrec Hin Hn. unfold tryMove. unfold bind at 1.
  destruct (heap s !! nb) as [b|] eqn:Hb; [|by unfold load, bind, deref; rewrite Hb].
  specialize (Hn b eq_refl).
  rewrite (load_Ret _ _ _ _ Hb). unfold bind at 1. rewrite (assign_Ret _ _ _ _ _ Hb).
  rewrite aset_in_range by done. rewrite rec_opponent. unfold bind at 1.
  set (s1 := with_heap _ s).
  destruct (rec nb (Spec.opponent p) s1) as [r s1'| |] eqn:Hr; [|done..].
  apply Hrec in Hr as ->; [|by apply inRange_assign].
  assert (heap s1 !! nb = Some (<[n := Str p]> b)) as Hb1 by apply lookup_insert_eq.
  unfold bind. rewrite (assign_Ret _ _ _ _ _ Hb1).
  rewrite aset_in_range by (by rewrite length_insert).
  rewrite list_insert_insert_eq. cbn [aget].
  destruct (lookup_lt_is_Some_2 b n Hn) as [v Hv]. rewrite Hv.
  change (default Undefined (Some v)) with v.
  rewrite (list_insert_id _ _ _ Hv). unfold ret. intros [= _ <-].
  unfold s1. by apply with_heap_restore.
Qed.

Lemma collect_frame (rec : loc → player → M move) nb p spots acc s ms s' :
  (∀ q s1 m1 s1', inRange s1 nb → rec nb q s1 = Ret m1 s1' → s1' = s1) →
  inRange s nb →
  (∀ v, v ∈ spots → ∃ n, v = Num n ∧ ∀ b, heap s !! nb = Some b → n < length b) →
  collect rec nb p spots acc s = Ret ms s' → s' = s.
Proof.
  intros Hrec Hin. revert acc. induction spots as [|v spots IH]; intros acc Hspots.
  - by intros [= _ <-].
  - cbn [collect]. unfold bind.
    destruct (tryMove rec nb p v s) as [m s1| |] eqn:Htry; [|done..].
    destruct (Hspots v) as (n & -> & Hn); [left|].
    apply tryMove_frame in Htry as ->; [|done..].
    apply IH. intros v' Hv'. apply Hspots. by right.
Qed.

(** Whatever array minimax is called on, if it returns, the store it returns
    is the store it was given, as long as the numbers on the global board
    are indexes of that array. *)
Lemma minimax_frame fuel nb p s m s' :
  inRange s nb → minimax fuel nb p s = Ret m s' → s' = s.
Proof.
  revert nb p s m s'. induction fuel as [|fuel IH]; intros nb p s m s' Hin; [done|].
  cbn [minimax]. unfold bind at 1.
  destruct (heap s !! origBoard s) as [g|] eqn:Hg;
    [|by unfold emptySquares, bind, gets, deref; rewrite Hg].
  rewrite (emptySquares_Ret _ _ Hg). unfold bind at 1.
  destruct (heap s !! nb) as [b|] eqn:Hb; [|by unfold deref; rewrite Hb].
  rewrite (deref_Ret _ _ _ Hb).
  destruct (bool_decide _); [by intros [= _ <-]|].
  destruct (bool_decide _); [by intros [= _ <-]|].
  destruct (decide _); [by intros [= _ <-]|].
  unfold bind.
  destruct (collect _ _ _ _ _ s) as [ms s1| |] eqn:Hc; [|done..].
  apply collect_frame in Hc as ->.
  - unfold chosen. destruct (bestMoveOf p ms) as [i|]; [|done].
    destruct (ms !! i); [|done]. by intros [= _ <-].
  - intros q s1' m1 s1'' Hin1. by apply IH.
  - done.
  - intros v Hv. apply list_elem_of_filter in Hv as [Hnum Hv].
    destruct v as [k| |]; [|done..]. exists k. split; [done|].
    intros b' Hb'. by apply (Hin g b' k).
Qed.

Lemma inRange_encode s sb :
  heap s !! origBoard s = Some (encode sb) → inRange s (origBoard s).
Proof.
  intros Hs g b n Hg Hb Hn. rewrite Hs in Hg, Hb. injection Hg as <-. injection Hb as <-.
  apply list_elem_of_lookup in Hn as [i Hi]. rewrite encode_lookup in Hi.
  rewrite length_encode. destruct (sb !! i) as [[q|]|] eqn:Hsb; simpl in Hi; [done| |done].
  injection Hi as <-. by eapply lookup_lt_Some.
Qed.

End frame.

(** ** The two selection scans on any list of moves *)

Section first_optimum.
Implicit Types (p : player) (m : move).

Lemma scan_test_better p m m0 :
  (if decide (p = aiPlayer) then gtBound (score m) (Finite (score m0))
   else ltBound (score m) (Finite (score m0))) = true ↔ better p (score m) (score m0).
Proof. destruct p; simpl; apply Z.ltb_lt. Qed.

Lemma scanBest_first_optimum p ms pre i0 m0 :
  pre !! i0 = Some m0 →
  (∀ j m', pre !! j = Some m' →
     ¬ better p (score m') (score m0) ∧ (j < i0 → better p (score m0) (score m'))) →
  ∃ i m, scanBest p ms (length pre) (Finite (score m0)) (Some i0) = Some i ∧
         (pre ++ ms) !! i = Some m ∧
         ∀ j m', (pre ++ ms) !! j = Some m' →
           ¬ better p (score m') (score m) ∧ (j < i → better p (score m) (score m')).
Proof.
  revert pre i0 m0. induction ms as [|m ms IH]; intros pre i0 m0 Hi0 Hinv.
  - exists i0, m0. rewrite app_nil_r. by split.
  - cbn [scanBest]. rewrite cons_middle, app_assoc.
    pose proof (lookup_lt_Some _ _ _ Hi0) as Hlt.
    destruct (if decide (p = aiPlayer) then _ else _) eqn:Htest.
    + apply scan_test_better in Htest.
      specialize (IH (pre ++ [m]) (length pre) m).
      rewrite length_app, Nat.add_1_r in IH. apply IH.
      * by rewrite list_lookup_middle.
      * intros j m' Hj. apply lookup_app_Some in Hj as [Hj|[Hge Hj]].
        -- destruct (Hinv j m' Hj) as [Hnb _].
           pose proof (lookup_lt_Some _ _ _ Hj).
           destruct p; simpl in *; split; intros; lia.
        -- apply list_lookup_singleton_Some in Hj as [Hj ->].
           destruct p; simpl in *; split; intros; lia.
    + assert (¬ better p (score m) (score m0)) as Hnb.
      { intros Hb. apply scan_test_better in Hb. congruence. }
      specialize (IH (pre ++ [m]) i0 m0).
      rewrite length_app, Nat.add_1_r in IH. apply IH.
      * by rewrite lookup_app_l.
      * intros j m' Hj. apply lookup_app_Some in Hj as [Hj|[Hge Hj]]; [by apply Hinv|].
        apply list_lookup_singleton_Some in Hj as [Hj ->].
        split; [done|lia].
Qed.

(** The move returned is the first one, in list order, whose score no other
    move beats. *)
Lemma chosen_first_optimum p (moves : list move) s :
  moves ≠ [] →
  ∃ i m, chosen p moves s = Ret m s ∧ moves !! i = Some m ∧
         ∀ j m', moves !! j = Some m' →
           ¬ better p (score m') (score m) ∧ (j < i → better p (score m) (score m')).
Proof.
  destruct moves as [|m0 ms]; [done|]. intros _.
  unfold chosen, bestMoveOf. cbn [scanBest].
  assert ((if decide (p = aiPlayer)
           then gtBound (score m0)
                  (if decide (p = aiPlayer) then NegInfinity else PosInfinity)
           else ltBound (score m0)
                  (if decide (p = aiPlayer) then NegInfinity else PosInfinity)) = true)
    as -> by (by destruct p).
  destruct (scanBest_first_optimum p ms [m0] 0 m0) as (i & m & Hscan & Hi & Hopt).
  - done.
  - intros j m' Hj. apply list_lookup_singleton_Some in Hj as [-> ->].
    split; [destruct p; simpl; lia|lia].
  - cbn [length] in Hscan. rewrite Hscan.
    change (m0 :: ms) with ([m0] ++ ms). rewrite Hi. by exists i, m.
Qed.

Lemma empties_sorted (sb : Spec.board) :
  StronglySorted lt (Spec.empties sb) ∧ ∀ k, k ∈ Spec.empties sb → k < length sb.
Proof.
  split.
  - induction sb as [|c sb IH] using rev_ind; [constructor|].
    rewrite empties_app. apply StronglySorted_app. split; [|split; [done|]].
    + intros k1 k2 Hk1 Hk2. apply elem_of_empties, lookup_lt_Some in Hk1.
      destruct (decide (c = None)); [|by apply not_elem_of_nil in Hk2].
      apply list_elem_of_singleton in Hk2 as ->. done.
    + destruct (decide (c = None)); repeat constructor.
  - intros k Hk. by apply elem_of_empties, lookup_lt_Some in Hk.
Qed.

End first_optimum.

(** * The claims *)

(** C1. On the board [X,X,Empty,O,O,Empty,Empty,Empty,Empty] with the AI to
    move, bestSpot (minimax at the top level) returns cell 2 at any recursion
    bound above the five Empty cells, and leaves the store as it was; cell 2
    is the cell that would complete the Human's row 0. *)
Theorem bestSpot_blocks_row0 (s : store) (fuel : nat) :
  heap s !! origBoard s = Some scenarioBoard →
  5 < fuel →
  bestSpot fuel s = Ret (Num 2) s ∧
  checkWin (aset scenarioBoard (Num 2) (Str huPlayer)) huPlayer = Some (GameWon 0 huPlayer).
Proof.
  intros Hs Hfuel. split; [|done].
  change scenarioBoard with (encode scenarioCells) in Hs.
  unfold bestSpot, bind, gets.
  destruct (minimax_Ret fuel s scenarioCells aiPlayer Hs) as (r & Hr & ->).
  - change (length (Spec.empties scenarioCells)) with 5. lia.
  - vm_compute in Hr. by injection Hr as <-.
Qed.

Lemma bestSpot_blocks_row0_witness :
  bestSpot 6 scenarioStore = Ret (Num 2) scenarioStore ∧
  checkWin (aset scenarioBoard (Num 2) (Str huPlayer)) huPlayer = Some (GameWon 0 huPlayer).
Proof. apply (bestSpot_blocks_row0 scenarioStore 6); [reflexivity|lia]. Defined.

(** C2. Whatever the player to move and the recursion bound left, a call of
    minimax on the global board first scores the terminal boards, in this
    order and with these values: the Human has a completed line, -10; else
    the AI has one, +10; else no Empty cell is left, 0; only otherwise are
    moves generated.  No score it ever returns is anything but -10, 0 or 10:
    nothing is adjusted by depth. *)
Theorem minimax_terminal_scores (s : store) (sb : Spec.board) (p : player) (fuel : nat) :
  heap s !! origBoard s = Some (encode sb) →
  minimax (S fuel) (origBoard s) p s =
    (if Spec.hasWon sb huPlayer then Ret (Move Undefined (-10)) s
     else if Spec.hasWon sb aiPlayer then Ret (Move Undefined 10) s
     else if Spec.isFull sb then Ret (Move Undefined 0) s
     else (moves <- collect (minimax fuel) (origBoard s) p (Num <$> Spec.empties sb) [] ;;
           chosen p moves) s) ∧
  (∀ fuel', match minimax fuel' (origBoard s) p s with
            | Ret m _ => score m ∈ [(-10)%Z; 0%Z; 10%Z]
            | _ => True
            end).
Proof.
  intros Hs. split.
  - cbn [minimax]. unfold bind at 1.
    rewrite (emptySquares_Ret _ _ Hs), filter_encode.
    unfold bind at 1. rewrite (deref_Ret _ _ _ Hs).
    rewrite !checkWin_encode_is_Some.
    destruct (Spec.hasWon sb huPlayer); [done|].
    destruct (Spec.hasWon sb aiPlayer); [done|].
    rewrite isFull_empties, length_fmap.
    destruct (Spec.empties sb) as [|k0 ks0] eqn:He.
    + by rewrite bool_decide_eq_true_2.
    + rewrite bool_decide_eq_false_2 by done. by rewrite decide_False by (simpl; lia).
  - intros fuel'. destruct (minimax fuel' (origBoard s) p s) as [m s'| |] eqn:Hm; [|done..].
    destruct (minimax_Ret_inv _ _ _ _ _ _ Hs Hm) as (_ & r & Hr & ->).
    by eapply search_score.
Qed.

Lemma minimax_terminal_scores_witness :
  minimax 1 0 aiPlayer wonStore = Ret (Move Undefined (-10)) wonStore.
Proof.
  exact (proj1 (minimax_terminal_scores wonStore wonCells aiPlayer 0 eq_refl)).
Defined.

(** C3. On a board that is not terminal, minimax collects one move per Empty
    cell, in increasing cell order, and returns the first of them that no
    other beats: for the AI no move has a greater score and every earlier
    one has a strictly smaller score, for the Human no move has a smaller
    score and every earlier one has a strictly greater score. *)
Theorem minimax_selects_first_optimum (s : store) (sb : Spec.board) (p : player) (fuel : nat) :
  heap s !! origBoard s = Some (encode sb) →
  Spec.terminal sb = None →
  length (Spec.empties sb) ≤ fuel →
  ∃ (moves : list move) (i : nat) (m : move),
    emptySquares s = Ret (Num <$> Spec.empties sb) s ∧
    StronglySorted lt (Spec.empties sb) ∧
    collect (minimax fuel) (origBoard s) p (Num <$> Spec.empties sb) [] s = Ret moves s ∧
    index <$> moves = Num <$> Spec.empties sb ∧
    minimax (S fuel) (origBoard s) p s = Ret m s ∧
    moves !! i = Some m ∧
    ∀ j m', moves !! j = Some m' →
      match p with
      | O => (score m' ≤ score m)%Z ∧ (j < i → (score m' < score m)%Z)
      | X => (score m ≤ score m')%Z ∧ (j < i → (score m < score m')%Z)
      end.
Proof.
  intros Hs Hterm Hfuel.
  pose proof (collect_search fuel s sb p (Spec.empties sb) [] Hs) as Hcollect.
  rewrite Hcollect by (intros k Hk; by apply elem_of_empties).
  clear Hcollect.
  destruct (scoreAll_is_Some
    (λ k, snd <$> Spec.search fuel (Spec.place sb k p) (Spec.opponent p)) (Spec.empties sb))
    as [cs Hcs].
  { intros k Hk. apply fmap_is_Some, search_total. apply elem_of_empties in Hk.
    pose proof (empties_place_lt sb k p Hk). lia. }
  rewrite Hcs. rewrite app_nil_l.
  assert (toMoveC <$> cs ≠ []) as Hne.
  { apply terminal_None_empties in Hterm. apply scoreAll_length in Hcs.
    destruct cs; [|done]. destruct (Spec.empties sb); simpl in *; [done|lia]. }
  destruct (chosen_first_optimum p (toMoveC <$> cs) s Hne) as (i & m & Hch & Hi & Hopt).
  exists (toMoveC <$> cs), i, m.
  split; [by rewrite (emptySquares_Ret _ _ Hs), filter_encode|].
  split; [apply empties_sorted|].
  split; [done|].
  split.
  { rewrite <- (scoreAll_fst _ _ _ Hcs), <- !list_fmap_compose. done. }
  split.
  { rewrite (minimax_search _ _ _ _ Hs). cbn [Spec.search]. rewrite Hterm, Hcs.
    destruct cs as [|c0 rest]; [done|].
    rewrite chosen_select in Hch. by injection Hch as <-. }
  split; [done|].
  intros j m' Hj. destruct (Hopt j m' Hj) as [Hnb Hb].
  destruct p; simpl in *; split; intros; lia.
Qed.

Lemma minimax_selects_first_optimum_witness :
  ∃ (moves : list move) (i : nat) (m : move),
    emptySquares scenarioStore = Ret (Num <$> Spec.empties scenarioCells) scenarioStore ∧
    StronglySorted lt (Spec.empties scenarioCells) ∧
    collect (minimax 5) (origBoard scenarioStore) aiPlayer
      (Num <$> Spec.empties scenarioCells) [] scenarioStore = Ret moves scenarioStore ∧
    index <$> moves = Num <$> Spec.empties scenarioCells ∧
    minimax 6 (origBoard scenarioStore) aiPlayer scenarioStore = Ret m scenarioStore ∧
    moves !! i = Some m ∧
    ∀ j m', moves !! j = Some m' →
      (score m' ≤ score m)%Z ∧ (j < i → (score m' < score m)%Z).
Proof.
  apply (minimax_selects_first_optimum scenarioStore scenarioCells aiPlayer 5);
    [reflexivity|reflexivity|vm_compute; lia].
Defined.

(** C4. For every board and every player, a call of minimax on the global
    board returns, and the store it returns is the store it was given: the
    board array, like everything else, is as before the call.  The same holds
    for every single turn of its loop, which undoes its placement, and for
    bestSpot.  More generally, on whatever array minimax is called, a call
    that returns hands back the store it was given, as long as the numbers
    on the global board are indexes of that array. *)
Theorem minimax_leaves_board :
  (∀ (s : store) (sb : Spec.board) (p : player) (fuel : nat),
      heap s !! origBoard s = Some (encode sb) →
      length (Spec.empties sb) < fuel →
      (∃ m, minimax fuel (origBoard s) p s = Ret m s) ∧
      (∀ k, sb !! k = Some None →
            ∃ m, tryMove (minimax (fuel - 1)) (origBoard s) p (Num k) s = Ret m s) ∧
      (∃ k, bestSpot fuel s = Ret k s)) ∧
  (∀ (fuel : nat) (nb : loc) (p : player) (s s' : store) (m : move),
      inRange s nb → minimax fuel nb p s = Ret m s' → s' = s).
Proof.
  split.
  - intros s sb p fuel Hs Hfuel. split; [|split].
    + destruct (minimax_Ret fuel s sb p Hs Hfuel) as (r & _ & ->). by eexists.
    + intros k Hk. rewrite (tryMove_search _ _ _ _ _ Hs Hk).
      destruct (search_total (fuel - 1) (Spec.place sb k p) (Spec.opponent p)) as [r ->].
      * pose proof (empties_place_lt sb k p Hk). lia.
      * by eexists.
    + rewrite (bestSpot_chooseMove _ _ _ Hs Hfuel). by eexists.
  - intros fuel nb p s s' m. apply minimax_frame.
Qed.

Lemma minimax_leaves_board_witness :
  ((∃ m, minimax 6 (origBoard scenarioStore) aiPlayer scenarioStore = Ret m scenarioStore) ∧
   (∀ k, scenarioCells !! k = Some None →
         ∃ m, tryMove (minimax (6 - 1)) (origBoard scenarioStore) aiPlayer (Num k)
                scenarioStore = Ret m scenarioStore) ∧
   (∃ k, bestSpot 6 scenarioStore = Ret k scenarioStore)) ∧
  (∀ m s', minimax 3 1 aiPlayer tieStore = Ret m s' → s' = tieStore).
Proof.
  split.
  - apply (proj1 minimax_leaves_board scenarioStore scenarioCells aiPlayer 6);
      [reflexivity|vm_compute; lia].
  - intros m s'. apply (proj2 minimax_leaves_board 3 1 aiPlayer tieStore s' m).
    intros g b n Hg Hb Hn. vm_compute in Hg, Hb. injection Hg as <-. injection Hb as <-.
    apply list_elem_of_lookup in Hn as [i Hi].
    do 9 (destruct i as [|i]; [by (discriminate Hi || (injection Hi as <-; simpl; lia))|]).
    done.
Defined.

(** C7. For every player and every board, checkWin returns an object exactly
    when one of the eight combinations has all its cells marked by the
    player, and the object it returns names the player and the first such
    combination in the order of the table. *)
Theorem checkWin_first_held_line (b : array) (p : player) :
  (is_Some (checkWin b p) ↔ ∃ i win, winCombos !! i = Some win ∧ lineHeld b p win) ∧
  (∀ w, checkWin b p = Some w ↔
        won_player w = p ∧
        ∃ win, winCombos !! won_index w = Some win ∧ lineHeld b p win ∧
               ∀ j win', j < won_index w → winCombos !! j = Some win' → ¬ lineHeld b p win').
Proof.
  split; [apply checkWin_is_Some|]. intros w. apply checkWin_Some.
Qed.

(** ** Moves on the live board *)

Section moves.
Implicit Types (s : store) (sb : Spec.board) (p : player).

Lemma typeofNumber_aget_encode sb i :
  typeofNumber (aget (encode sb) (Num i)) = bool_decide (sb !! i = Some None).
Proof.
  cbn [aget]. rewrite encode_lookup.
  destruct (sb !! i) as [[q|]|]; cbn [fmap option_fmap option_map default encodeCell typeofNumber];
    symmetry.
  - by apply bool_decide_eq_false_2.
  - by apply bool_decide_eq_true_2.
  - by apply bool_decide_eq_false_2.
Qed.

Lemma turn_Num s sb i p :
  heap s !! origBoard s = Some (encode sb) →
  sb !! i = Some None →
  i < 9 →
  turn (Num i) p s = Ret tt (afterTurn s sb i p).
Proof.
  intros Hs Hi Hlt. unfold turn, bind, gets.
  rewrite (assign_Ret _ _ _ _ _ Hs).
  rewrite aset_encode_place by (by eapply lookup_lt_Some).
  unfold getElementById, hasCell. rewrite bool_decide_eq_true_2 by done.
  unfold ret at 1.
  set (s1 := with_heap _ s).
  assert (heap s1 !! origBoard s1 = Some (encode (Spec.place sb i p))) as Hs1
    by (unfold s1; simpl; apply lookup_insert_eq).
  change (origBoard s) with (origBoard s1) at 1.
  rewrite (deref_Ret _ _ _ Hs1), checkWin_encode.
  unfold afterTurn, Spec.outcome.
  destruct (Spec.checkWin (Spec.place sb i p) p) as [line|]; simpl.
  - unfold gameOver, bind, modify. simpl. by destruct p.
  - unfold checkTie, bind. rewrite (emptySquares_Ret _ _ Hs1), filter_encode.
    rewrite isFull_empties, length_fmap.
    destruct (Spec.empties (Spec.place sb i p)) as [|k0 ks0]; simpl.
    + done.
    + unfold ret, modify. simpl.
      destruct (gameActive s) eqn:Hact; unfold with_status, s1; simpl; rewrite ?Hact;
        destruct p; unfold with_heap; by rewrite ?Hact.
Qed.

(** [turn(undefined, p)]: line 58 sets a property named "undefined", no
    slot changes, and line 61 throws. *)
Lemma turn_Undefined s a p :
  heap s !! origBoard s = Some a →
  turn Undefined p s = Throw s.
Proof.
  intros Hs. unfold turn, bind, gets. rewrite (assign_Ret _ _ _ _ _ Hs). simpl.
  unfold throw. f_equal. rewrite insert_id by done. apply with_heap_same.
Qed.

Lemma afterTurn_board s sb i p :
  heap (afterTurn s sb i p) !! origBoard (afterTurn s sb i p)
  = Some (encode (Spec.place sb i p)).
Proof.
  unfold afterTurn. destruct (Spec.outcome _ p); simpl; apply lookup_insert_eq.
Qed.

Lemma afterTurn_timers s sb i p : timers (afterTurn s sb i p) = timers s.
Proof. unfold afterTurn. by destruct (Spec.outcome _ p). Qed.

(** A click, on a store that holds an encoded board of nine cells. *)
Lemma turnClick_encoded s sb id :
  heap s !! origBoard s = Some (encode sb) →
  length sb = 9 →
  turnClick id s =
  Ret tt (if gameActive s && bool_decide (sb !! id = Some None) then
            let s' := afterTurn s sb id huPlayer in
            if gameActive s' then with_timers (S (timers s')) (with_status MsgThinking s')
            else s'
          else s).
Proof.
  intros Hs Hlen. unfold turnClick, bind, gets.
  destruct (gameActive s) eqn:Hact; [|done]. simpl.
  rewrite (load_Ret _ _ _ _ Hs), typeofNumber_aget_encode.
  case_bool_decide as Hid; [|done].
  rewrite (turn_Num _ _ _ _ Hs Hid) by (apply lookup_lt_Some in Hid; lia).
  by destruct (gameActive (afterTurn s sb id huPlayer)).
Qed.

End moves.

(** ** Reachable stores hold an encoded board of nine cells *)

Section reachable_stores.
Implicit Types (s : store) (sb : Spec.board).

Lemma fresh_game_board :
  heap fresh_game !! origBoard fresh_game = Some (encode (replicate 9 None)).
Proof. reflexivity. Qed.

Lemma turnClick_encoded9 id s s' :
  encoded9 s → storeOf (turnClick id s) = Some s' → encoded9 s'.
Proof.
  intros (sb & Hlen & Hs). rewrite (turnClick_encoded _ _ _ Hs Hlen). simpl.
  destruct (gameActive s && bool_decide (sb !! id = Some None)).
  - pose proof (afterTurn_board s sb id huPlayer) as Hb.
    intros [= <-]. exists (Spec.place sb id huPlayer).
    split; [unfold Spec.place; by rewrite length_insert|].
    by destruct (gameActive (afterTurn s sb id huPlayer)).
  - intros [= <-]. by exists sb.
Qed.

Lemma aiCallback_encoded9 fuel s s' :
  encoded9 s → storeOf (aiCallback fuel s) = Some s' → encoded9 s'.
Proof.
  intros (sb & Hlen & Hs). unfold aiCallback, bestSpot, bind, gets.
  rewrite (minimax_search _ _ _ _ Hs).
  destruct (Spec.search fuel sb aiPlayer) as [[[k|] v]|] eqn:Hr; simpl; [| |done].
  - apply search_cell in Hr.
    rewrite (turn_Num _ _ _ _ Hs Hr) by (apply lookup_lt_Some in Hr; lia).
    intros [= <-]. exists (Spec.place sb k aiPlayer).
    split; [unfold Spec.place; by rewrite length_insert|]. apply afterTurn_board.
  - rewrite (turn_Undefined _ _ _ Hs). intros [= <-]. by exists sb.
Qed.

Lemma reachable_encoded9 s : reachable s → encoded9 s.
Proof.
  intros Hreach. apply (rtc_ind_r (R := step) encoded9 fresh_game); [| |exact Hreach].
  - exists (replicate 9 None). split; [done|apply fresh_game_board].
  - clear s Hreach. intros s1 s2 _ Hstep IH.
    destruct Hstep as [id s1 s2 Hclick|fuel s1 s2 n Hn Hcb].
    + by eapply turnClick_encoded9.
    + eapply aiCallback_encoded9; [|exact Hcb].
      destruct IH as (sb & Hlen & Hs). by exists sb.
Qed.

End reachable_stores.

(** ** The arrays the script writes into *)

Section writes.
Implicit Types (s : store) (nb l : loc) (p : player).

Lemma sameElsewhere_refl nb s : sameElsewhere nb s s.
Proof. by split. Qed.

Lemma sameElsewhere_trans nb s1 s2 s3 :
  sameElsewhere nb s1 s2 → sameElsewhere nb s2 s3 → sameElsewhere nb s1 s3.
Proof.
  intros [Hg1 Hh1] [Hg2 Hh2]. split; [congruence|].
  intros l Hl. by rewrite Hh2, Hh1.
Qed.

Lemma writesOnly_bind {A B} nb (m : M A) (k : A → M B) :
  writesOnly nb m → (∀ a, writesOnly nb (k a)) → writesOnly nb (bind m k).
Proof.
  intros Hm Hk s s' Hs'. unfold bind in Hs'. specialize (Hm s).
  destruct (m s) as [a s1|s1|]; [|by apply Hm|done].
  eapply sameElsewhere_trans; [by apply Hm|by eapply Hk].
Qed.

Lemma writesOnly_ret {A} nb (a : A) : writesOnly nb (ret a).
Proof. intros s s' [= <-]. apply sameElsewhere_refl. Qed.

Lemma writesOnly_throw {A} nb : writesOnly nb (throw (A := A)).
Proof. intros s s' [= <-]. apply sameElsewhere_refl. Qed.

Lemma writesOnly_spin {A} nb : writesOnly nb (spin (A := A)).
Proof. by intros s s'. Qed.

Lemma writesOnly_gets {A} nb (f : store → A) : writesOnly nb (gets f).
Proof. intros s s' [= <-]. apply sameElsewhere_refl. Qed.

Lemma writesOnly_modify nb (f : store → store) :
  (∀ s, origBoard (f s) = origBoard s ∧ heap (f s) = heap s) → writesOnly nb (modify f).
Proof. intros Hf s s' [= <-]. destruct (Hf s) as [Hg Hh]. split; [done|]. by rewrite Hh. Qed.

Lemma writesOnly_deref nb l : writesOnly nb (deref l).
Proof.
  intros s s'. unfold deref. destruct (heap s !! l); intros [= <-]; apply sameElsewhere_refl.
Qed.

Lemma writesOnly_load nb l k : writesOnly nb (load l k).
Proof. apply writesOnly_bind; [apply writesOnly_deref|intros a; apply writesOnly_ret]. Qed.

Lemma writesOnly_assign nb k v : writesOnly nb (assign nb k v).
Proof.
  apply writesOnly_bind; [apply writesOnly_deref|]. intros a s s' [= <-].
  split; [done|]. intros l Hl. simpl. by rewrite lookup_insert_ne.
Qed.

Lemma writesOnly_emptySquares nb : writesOnly nb emptySquares.
Proof.
  apply writesOnly_bind; [apply writesOnly_gets|]. intros g.
  apply writesOnly_bind; [apply writesOnly_deref|]. intros a. apply writesOnly_ret.
Qed.

Lemma writesOnly_chosen nb p ms : writesOnly nb (chosen p ms).
Proof.
  unfold chosen. destruct (bestMoveOf p ms) as [i|]; [|apply writesOnly_throw].
  destruct (ms !! i); [apply writesOnly_ret|apply writesOnly_throw].
Qed.

Lemma writesOnly_tryMove (rec : loc → player → M move) nb p k :
  (∀ q, writesOnly nb (rec nb q)) → writesOnly nb (tryMove rec nb p k).
Proof.
  intros Hrec. apply writesOnly_bind; [apply writesOnly_load|]. intros idx.
  apply writesOnly_bind; [apply writesOnly_assign|]. intros _.
  apply writesOnly_bind; [destruct (decide _); apply Hrec|]. intros r.
  apply writesOnly_bind; [apply writesOnly_assign|]. intros _. apply writesOnly_ret.
Qed.

Lemma writesOnly_collect (rec : loc → player → M move) nb p ks acc :
  (∀ q, writesOnly nb (rec nb q)) → writesOnly nb (collect rec nb p ks acc).
Proof.
  intros Hrec. revert acc. induction ks as [|k ks IH]; intros acc; [apply writesOnly_ret|].
  apply writesOnly_bind; [by apply writesOnly_tryMove|]. intros m. apply IH.
Qed.

(** minimax writes into the array it is given and into no other. *)
Lemma writesOnly_minimax fuel nb p : writesOnly nb (minimax fuel nb p).
Proof.
  revert p. induction fuel as [|fuel IH]; intros p; [apply writesOnly_spin|].
  cbn [minimax]. apply writesOnly_bind; [apply writesOnly_emptySquares|]. intros spots.
  apply writesOnly_bind; [apply writesOnly_deref|]. intros b.
  destruct (bool_decide _); [apply writesOnly_ret|].
  destruct (bool_decide _); [apply writesOnly_ret|].
  destruct (decide _); [apply writesOnly_ret|].
  apply writesOnly_bind; [by apply writesOnly_collect|]. intros ms. apply writesOnly_chosen.
Qed.

Lemma writesOnly_gameOver nb w : writesOnly nb (gameOver w).
Proof.
  apply writesOnly_bind; [by apply writesOnly_modify|]. intros _. by apply writesOnly_modify.
Qed.

Lemma writesOnly_checkTie nb : writesOnly nb checkTie.
Proof.
  apply writesOnly_bind; [apply writesOnly_emptySquares|]. intros es.
  destruct (decide _); [|apply writesOnly_ret].
  apply writesOnly_bind; [by apply writesOnly_modify|]. intros _. apply writesOnly_ret.
Qed.

Lemma writesBoard_bind {A B} (m : M A) (k : A → M B) :
  writesBoard m → (∀ a, writesBoard (k a)) → writesBoard (bind m k).
Proof.
  intros Hm Hk s s' Hs'. unfold bind in Hs'. specialize (Hm s).
  destruct (m s) as [a s1|s1|]; [|by apply Hm|done].
  specialize (Hm s1 eq_refl). apply Hk in Hs'. destruct Hm as [Hg Hh].
  rewrite Hg in Hs'. eapply sameElsewhere_trans; [by split|done].
Qed.

(** What writes through no reference at all writes into the board only. *)
Lemma writesBoard_none {A} (m : M A) : (∀ g, writesOnly g m) → writesBoard m.
Proof. intros Hm s s'. apply Hm. Qed.

(** A function that starts by reading the global and then writes only
    through it. *)
Lemma writesBoard_global {A} (m : loc → M A) :
  (∀ g, writesOnly g (m g)) → writesBoard (g <- gets origBoard ;; m g).
Proof. intros Hm s s'. unfold bind, gets. apply Hm. Qed.

Lemma writesBoard_turn k p : writesBoard (turn k p).
Proof.
  unfold turn. apply writesBoard_global. intros g.
  apply writesOnly_bind; [apply writesOnly_assign|]. intros _.
  apply writesOnly_bind.
  { unfold getElementById. destruct (hasCell k); [apply writesOnly_ret|apply writesOnly_throw]. }
  intros _. apply writesOnly_bind; [apply writesOnly_deref|]. intros b.
  destruct (checkWin b p); [apply writesOnly_gameOver|].
  apply writesOnly_bind; [apply writesOnly_checkTie|]. intros [|].
  - apply writesOnly_bind; [by apply writesOnly_modify|]. intros _. by apply writesOnly_modify.
  - apply writesOnly_bind; [apply writesOnly_gets|]. intros [|]; [|apply writesOnly_ret].
    by apply writesOnly_modify.
Qed.

Lemma writesBoard_turnClick id : writesBoard (turnClick id).
Proof.
  unfold turnClick.
  apply writesBoard_bind; [apply writesBoard_none; intros g; apply writesOnly_gets|].
  intros [|]; [|apply writesBoard_none; intros g; apply writesOnly_ret].
  apply writesBoard_bind; [apply writesBoard_none; intros g; apply writesOnly_gets|].
  intros g. apply writesBoard_bind; [apply writesBoard_none; intros g'; apply writesOnly_load|].
  intros v. destruct (typeofNumber v); [|apply writesBoard_none; intros g'; apply writesOnly_ret].
  apply writesBoard_bind; [apply writesBoard_turn|]. intros _.
  apply writesBoard_none. intros g'.
  apply writesOnly_bind; [apply writesOnly_gets|]. intros [|]; [|apply writesOnly_ret].
  apply writesOnly_bind; [by apply writesOnly_modify|]. intros _.
  unfold setTimeout. by apply writesOnly_modify.
Qed.

Lemma writesBoard_aiCallback fuel : writesBoard (aiCallback fuel).
Proof.
  unfold aiCallback. apply writesBoard_bind; [|intros k; apply writesBoard_turn].
  unfold bestSpot. apply writesBoard_global. intros g.
  apply writesOnly_bind; [apply writesOnly_minimax|]. intros m. apply writesOnly_ret.
Qed.

(** No event writes into an array other than the board. *)
Lemma step_writes_board s s' : step s s' → sameElsewhere (origBoard s) s s'.
Proof.
  intros [id s0 s0' Hclick|fuel s0 s0' n Hn Hcb]; [by eapply writesBoard_turnClick|].
  by apply writesBoard_aiCallback in Hcb.
Qed.

Lemma rtc_step_writes_board s s' : rtc step s s' → sameElsewhere (origBoard s) s s'.
Proof.
  induction 1 as [s|s1 s2 s3 Hstep _ IH]; [apply sameElsewhere_refl|].
  apply step_writes_board in Hstep. destruct Hstep as [Hg Hh].
  rewrite Hg in IH. eapply sameElsewhere_trans; [by split|done].
Qed.

Lemma tableAt_elsewhere s s' ls :
  sameElsewhere (origBoard s) s s' → tableAt s ls → origBoard s ∉ ls →
  tableAt s' ls ∧ origBoard s' ∉ ls.
Proof.
  intros [Hg Hh] Htab Hnot. rewrite Hg. split; [|done].
  unfold tableAt in *. induction Htab as [|l win ls wins Hl _ IH]; [constructor|].
  apply not_elem_of_cons in Hnot as [Hne Hnot].
  constructor; [|by apply IH]. by rewrite Hh.
Qed.

Lemma tableAt_allocated s ls l : tableAt s ls → l ∈ ls → is_Some (heap s !! l).
Proof.
  unfold tableAt. induction 1 as [|l0 win ls wins Hl _ IH]; [by intros ?%elem_of_nil|].
  intros [->|Hin]%elem_of_cons; [by eexists|by apply IH].
Qed.

(** startGame makes the board a new array, away from those of the table. *)
Lemma startGame_tableAt s ls :
  tableAt s ls →
  ∃ s', startGame s = Ret tt s' ∧ tableAt s' ls ∧ origBoard s' ∉ ls.
Proof.
  intros Htab. eexists. split; [reflexivity|]. simpl.
  assert (fresh (dom (heap s)) ∉ ls) as Hfresh.
  { intros Hin. apply (tableAt_allocated _ _ _ Htab) in Hin.
    apply elem_of_dom in Hin. by apply is_fresh in Hin. }
  split; [|done].
  unfold tableAt in *. induction Htab as [|l win ls wins Hl _ IH]; [constructor|].
  apply not_elem_of_cons in Hfresh as [Hne Hfresh].
  constructor; [|by apply IH]. simpl. by rewrite lookup_insert_ne.
Qed.

Lemma rowOf_numbers (win : list nat) : rowOf (Num <$> win) = Some win.
Proof.
  unfold rowOf. induction win as [|n win IH]; [done|].
  cbn [fmap list_fmap mapM]. simpl in IH. by rewrite IH.
Qed.

(** Read back from its arrays, the table is winCombos. *)
Lemma tableAt_tableOf s ls : tableAt s ls → tableOf s ls = Some winCombos.
Proof.
  unfold tableAt, tableOf. generalize winCombos.
  induction 1 as [|l win ls wins Hl _ IH]; [done|].
  cbn [mapM]. rewrite Hl. simpl. rewrite rowOf_numbers. simpl. by rewrite IH.
Qed.

(** Win detection is the same over the table as the specification writes
    it, for every array. *)
Lemma checkWin_spec_table (a : array) p :
  checkWin a p = checkWinOver (tripleOf <$> Spec.winLines) a p.
Proof.
  unfold checkWin, checkWinOver.
  change (entries winCombos) with
    [ (0, [0; 1; 2]); (1, [3; 4; 5]); (2, [6; 7; 8]); (3, [0; 3; 6]);
      (4, [1; 4; 7]); (5, [2; 5; 8]); (6, [0; 4; 8]); (7, [6; 4; 2]) ].
  change (entries (tripleOf <$> Spec.winLines)) with
    [ (0, [0; 1; 2]); (1, [3; 4; 5]); (2, [6; 7; 8]); (3, [0; 3; 6]);
      (4, [1; 4; 7]); (5, [2; 5; 8]); (6, [0; 4; 8]); (7, [2; 4; 6]) ].
  cbn [firstWin]. rewrite !comboHeld_plays. cbn [forallb].
  by destruct (held a p 2), (held a p 4), (held a p 6).
Qed.

End writes.

(** C5. Win detection goes through eight lines: position by position the
    entries of winCombos hold the cells of the specification's WinLines
    (0,1,2), (3,4,5), (6,7,8), (0,3,6), (1,4,7), (2,5,8), (0,4,8), (2,4,6),
    three rows, three columns, two diagonals in this order (line 10 writes
    the cells of the last one from 6 to 2), and checkWin gives for every
    array and player what it gives over the specification's table.  The
    table stays as it is for as long as the script runs: no statement
    assigns winCombos, and the writes the script does make, through
    origBoard and newBoard, never land in it.  Whatever arrays hold its
    rows, startGame puts the board into a new array away from them, and
    through any clicks and callbacks they stay as they are: win detection
    over the table read back from them, in any later store, is checkWin. *)
Theorem winCombos_lines_fixed :
  length winCombos = 8 ∧
  Forall2 (λ win l, win ≡ₚ tripleOf l) winCombos Spec.winLines ∧
  (∀ (a : array) (p : player),
      checkWin a p = checkWinOver (tripleOf <$> Spec.winLines) a p) ∧
  (∀ (sb : Spec.board) (p : player),
      checkWin (encode sb) p = (λ i, GameWon i p) <$> Spec.checkWin sb p) ∧
  (∀ (s : store) (ls : list loc),
      tableAt s ls →
      ∃ s', startGame s = Ret tt s' ∧ tableAt s' ls ∧ origBoard s' ∉ ls) ∧
  (∀ (s s' : store) (ls : list loc),
      tableAt s ls → origBoard s ∉ ls → rtc step s s' →
      tableAt s' ls ∧ (origBoard s' ∉ ls) ∧
      ∀ (a : array) (p : player),
        (λ table, checkWinOver table a p) <$> tableOf s' ls = Some (checkWin a p)).
Proof.
  split; [done|]. split.
  { unfold winCombos, Spec.winLines. repeat (apply Forall2_cons; split; [done|]).
    apply Forall2_cons. split; [|constructor].
    change [6; 4; 2] with (reverse (tripleOf (2, 4, 6))). apply reverse_Permutation. }
  split; [apply checkWin_spec_table|]. split; [apply checkWin_encode|].
  split; [apply startGame_tableAt|].
  intros s s' ls Htab Hnot Hrun.
  destruct (tableAt_elsewhere s s' ls (rtc_step_writes_board _ _ Hrun) Htab Hnot)
    as [Htab' Hnot'].
  split; [done|]. split; [done|]. intros a p. by rewrite (tableAt_tableOf _ _ Htab').
Qed.

Lemma winCombos_lines_fixed_witness :
  (∃ s', startGame tableStore = Ret tt s' ∧
         tableAt s' (seq 1 8) ∧ origBoard s' ∉ seq 1 8) ∧
  (tableAt tablePlayed (seq 1 8) ∧ (origBoard tablePlayed ∉ seq 1 8) ∧
   ∀ (a : array) (p : player),
     (λ table, checkWinOver table a p) <$> tableOf tablePlayed (seq 1 8)
     = Some (checkWin a p)).
Proof.
  split.
  - apply (proj1 (proj2 (proj2 (proj2 (proj2 winCombos_lines_fixed)))) tableStore (seq 1 8)).
    unfold tableAt. repeat constructor.
  - apply (proj2 (proj2 (proj2 (proj2 (proj2 winCombos_lines_fixed))))
             tableGame tablePlayed (seq 1 8)).
    + unfold tableAt. repeat constructor.
    + apply (bool_decide_unpack _). by vm_compute.
    + apply rtc_once. apply (step_click 0). reflexivity.
Defined.

(** C6. A click on an occupied cell, or when the game is no longer active,
    returns with the store untouched: board, flag, status line and pending
    callbacks.  An accepted click is the specification's applyMove for the
    Human: in the store it returns, the board holds the mark, the flag is the
    session's, the status line is the outcome's, and a callback is scheduled
    exactly when the game goes on. *)
Theorem turnClick_rejects_or_applies (s : store) (id : nat) :
  (gameActive s = false → turnClick id s = Ret tt s) ∧
  (∀ a, heap s !! origBoard s = Some a →
        typeofNumber (aget a (Num id)) = false → turnClick id s = Ret tt s) ∧
  (∀ ss, heap s !! origBoard s = Some (encode (Spec.cells ss)) →
         gameActive s = Spec.active ss →
         length (Spec.cells ss) = 9 →
         turnClick id s =
         Ret tt (match Spec.applyMove ss id huPlayer with
                 | None => s
                 | Some (ss', o) =>
                     Store (<[origBoard s := encode (Spec.cells ss')]> (heap s))
                           (origBoard s) (Spec.active ss') (statusAfterClick o)
                           (if Spec.active ss' then S (timers s) else timers s)
                 end)).
Proof.
  split; [|split].
  - intros Hact. unfold turnClick, bind, gets. by rewrite Hact.
  - intros a Hs Hocc. unfold turnClick, bind, gets.
    destruct (gameActive s); [|done]. by rewrite (load_Ret _ _ _ _ Hs), Hocc.
  - intros [sb act] Hs Hact Hlen. simpl in *.
    rewrite (turnClick_encoded _ _ _ Hs Hlen). unfold Spec.applyMove. simpl.
    rewrite Hact. destruct act; [|done]. simpl.
    case_bool_decide as Hid; [|done]. unfold afterTurn.
    destruct (Spec.outcome (Spec.place sb id huPlayer) huPlayer) eqn:Ho; simpl; [|done..].
    by rewrite Hact.
Qed.

Lemma turnClick_rejects_or_applies_witness :
  turnClick 4 wonStore = Ret tt wonStore ∧
  turnClick 0 scenarioStore = Ret tt scenarioStore ∧
  turnClick 2 scenarioStore =
    Ret tt (Store {[ 0 := encode (Spec.place scenarioCells 2 X) ]} 0 false MsgYouWin 0).
Proof.
  split; [|split].
  - apply (proj1 (turnClick_rejects_or_applies wonStore 4)). reflexivity.
  - apply (proj1 (proj2 (turnClick_rejects_or_applies scenarioStore 0)) scenarioBoard);
      reflexivity.
  - exact (proj2 (proj2 (turnClick_rejects_or_applies scenarioStore 2))
             (Spec.Session scenarioCells true) eq_refl eq_refl eq_refl).
Defined.

(** C8 does not hold of the script: a second click may come while the
    callback of the first is still pending, and turnClick takes it.  Two
    clicks from a fresh game reach a store with two X and no O on the board
    and two callbacks pending. *)
Theorem two_clicks_two_marks :
  ∃ s a, reachable s ∧ heap s !! origBoard s = Some a ∧
         countMarks a huPlayer = 2 ∧ countMarks a aiPlayer = 0 ∧ timers s = 2.
Proof.
  destruct (turnClick 0 fresh_game) as [[] s1| |] eqn:H1; [|by vm_compute in H1..].
  destruct (turnClick 1 s1) as [[] s2| |] eqn:H2;
    [|vm_compute in H1; injection H1 as <-; by vm_compute in H2..].
  exists s2, [Str X; Str X; Num 2; Num 3; Num 4; Num 5; Num 6; Num 7; Num 8].
  split.
  - eapply rtc_l; [apply (step_click 0); by rewrite H1|].
    eapply rtc_l; [apply (step_click 1); by rewrite H2|]. done.
  - vm_compute in H1. injection H1 as <-. vm_compute in H2. injection H2 as <-.
    by vm_compute.
Qed.

(** C9. The board array encodes a board: a slot holds its own index exactly
    when the cell is Empty and a mark exactly when the cell is marked.
    startGame sets this up, every store reachable by clicks and callbacks
    keeps it, and under it a turn of minimax's loop on an Empty cell records
    that cell's index and puts exactly that number back.  On a board that
    breaks it the recorded index is not the cell that was tried: in
    [brokenBoard] the O that wins is placed in slot 1 and the move says 0,
    where an O does not win. *)
Theorem board_representation_invariant :
  (∀ a, repInv a ↔ ∃ sb : Spec.board, a = encode sb) ∧
  (∀ (sb : Spec.board) i,
      (encode sb !! i = Some (Num i) ↔ sb !! i = Some None) ∧
      (∀ p, encode sb !! i = Some (Str p) ↔ sb !! i = Some (Some p))) ∧
  (heap fresh_game !! origBoard fresh_game = Some (encode (replicate 9 None)) ∧
   encode (replicate 9 None) = Num <$> seq 0 9) ∧
  (∀ s, reachable s → ∃ sb, length sb = 9 ∧ heap s !! origBoard s = Some (encode sb)) ∧
  (∀ s (sb : Spec.board) p k fuel,
      heap s !! origBoard s = Some (encode sb) →
      sb !! k = Some None →
      length (Spec.empties sb) ≤ fuel →
      ∃ v, tryMove (minimax fuel) (origBoard s) p (Num k) s = Ret (Move (Num k) v) s) ∧
  (tryMove (minimax 1) (origBoard brokenStore) aiPlayer (Num 1) brokenStore
     = Ret (Move (Num 0) 10) brokenStore ∧
   is_Some (checkWin (aset brokenBoard (Num 1) (Str aiPlayer)) aiPlayer) ∧
   checkWin (aset brokenBoard (Num 0) (Str aiPlayer)) aiPlayer = None).
Proof.
  split; [|split; [|split; [|split; [|split]]]].
  - intros a. split; [intros Ha; eexists; by apply repInv_encode|].
    intros [sb ->]. apply encode_repInv.
  - intros sb i. rewrite !encode_lookup. split; [|intros p].
    + destruct (sb !! i) as [[q|]|]; simpl; split; congruence.
    + destruct (sb !! i) as [[q|]|]; simpl; split; congruence.
  - split; reflexivity.
  - apply reachable_encoded9.
  - intros s sb p k fuel Hs Hk Hfuel.
    rewrite (tryMove_search _ _ _ _ _ Hs Hk).
    destruct (search_total fuel (Spec.place sb k p) (Spec.opponent p)) as [r ->].
    + pose proof (empties_place_lt sb k p Hk). lia.
    + by eexists.
  - split; [by vm_compute|]. split; [by eexists|done].
Qed.

Lemma board_representation_invariant_witness :
  (∃ sb, length sb = 9 ∧ heap fresh_game !! origBoard fresh_game = Some (encode sb)) ∧
  (∃ v, tryMove (minimax 5) (origBoard scenarioStore) aiPlayer (Num 2) scenarioStore
        = Ret (Move (Num 2) v) scenarioStore).
Proof.
  split.
  - apply (proj1 (proj2 (proj2 (proj2 board_representation_invariant))) fresh_game).
    apply rtc_refl.
  - apply (proj1 (proj2 (proj2 (proj2 (proj2 board_representation_invariant))))
             scenarioStore scenarioCells aiPlayer 2 5); [reflexivity|reflexivity|].
    vm_compute. lia.
Defined.

(** ** minimax on an array that is not the global board *)

Section other_array.
Implicit Types (s : store) (b g : array) (p : player).

(** One unfolding of minimax: the lines are looked for on the argument, the
    spots are those of the global board. *)
Lemma minimax_step fuel nb p s g b :
  heap s !! origBoard s = Some g →
  heap s !! nb = Some b →
  minimax (S fuel) nb p s =
  (if bool_decide (is_Some (checkWin b huPlayer)) then Ret (Move Undefined (-10)) s
   else if bool_decide (is_Some (checkWin b aiPlayer)) then Ret (Move Undefined 10) s
   else if decide (length (filter (λ v, typeofNumber v = true) g) = 0)
        then Ret (Move Undefined 0) s
   else (moves <- collect (minimax fuel) nb p (filter (λ v, typeofNumber v = true) g) [] ;;
         chosen p moves) s).
Proof.
  intros Hg Hb. cbn [minimax]. unfold bind at 1. rewrite (emptySquares_Ret _ _ Hg).
  unfold bind at 1. rewrite (deref_Ret _ _ _ Hb).
  destruct (bool_decide (is_Some (checkWin b huPlayer))); [done|].
  destruct (bool_decide (is_Some (checkWin b aiPlayer))); [done|].
  by destruct (decide _).
Qed.

Lemma copyStore_global b : heap (copyStore b) !! origBoard (copyStore b) = Some scenarioBoard.
Proof. done. Qed.

Lemma copyStore_copy b : heap (copyStore b) !! 1 = Some b.
Proof. apply lookup_insert_eq. Qed.

Lemma copyStore_assign b k v :
  assign 1 k v (copyStore b) = Ret tt (copyStore (aset b k v)).
Proof.
  rewrite (assign_Ret _ _ _ _ _ (copyStore_copy b)). unfold copyStore, with_heap. simpl.
  by rewrite insert_insert_eq.
Qed.

Lemma minimax_copy_step fuel p b :
  minimax (S fuel) 1 p (copyStore b) =
  (if bool_decide (is_Some (checkWin b huPlayer)) then Ret (Move Undefined (-10)) (copyStore b)
   else if bool_decide (is_Some (checkWin b aiPlayer)) then Ret (Move Undefined 10) (copyStore b)
   else (moves <- collect (minimax fuel) 1 p [Num 2; Num 5; Num 6; Num 7; Num 8] [] ;;
         chosen p moves) (copyStore b)).
Proof.
  by rewrite (minimax_step fuel 1 p _ _ _ (copyStore_global b) (copyStore_copy b)).
Qed.

Lemma tryMove_copy (rec : loc → player → M move) p k b :
  tryMove rec 1 p k (copyStore b) =
  match rec 1 (Spec.opponent p) (copyStore (aset b k (Str p))) with
  | Ret r s' => (assign 1 k (aget b k) ;; ret (Move (aget b k) (score r))) s'
  | Throw s' => Throw s'
  | Spin => Spin
  end.
Proof.
  unfold tryMove. unfold bind at 1. rewrite (load_Ret _ _ _ _ (copyStore_copy b)).
  unfold bind at 1. rewrite copyStore_assign, rec_opponent. unfold bind at 1.
  by destruct (rec 1 (Spec.opponent p) (copyStore (aset b k (Str p)))).
Qed.

(** Both win tests of minimax fail on [b]. *)
Ltac no_line b :=
  change (bool_decide (is_Some (checkWin b huPlayer))) with false;
  change (bool_decide (is_Some (checkWin b aiPlayer))) with false.

(** The Human holds a line on [b]: minimax returns -10 at once. *)
Ltac human_line b :=
  change (bool_decide (is_Some (checkWin b huPlayer))) with true; cbn match.

(** Run the loop's turn for the next spot, up to its recursive call. *)
Ltac enter_spot := unfold bind at 1; rewrite tryMove_copy.

(** After a turn whose call returned: undo the placement, push the move. *)
Ltac leave_spot := unfold bind at 1; rewrite copyStore_assign; unfold ret at 1.

Lemma copy_cycle fuel :
  minimax fuel 1 aiPlayer (copyStore cycleBoard) = Spin ∧
  minimax fuel 1 huPlayer (copyStore cycleBoard) = Spin.
Proof.
  induction fuel as [|fuel [IHO IHX]]; [done|]. split.
  - (* the AI re-marks cell 2, already its own, and the Human is to move *)
    rewrite minimax_copy_step. no_line cycleBoard.
    cbn [collect]. unfold bind at 1. enter_spot.
    change (aset cycleBoard (Num 2) (Str aiPlayer)) with cycleBoard.
    change (Spec.opponent aiPlayer) with huPlayer. by rewrite IHX.
  - (* the Human takes cell 2 over and wins; then re-marks cell 5, and the AI
       is to move on the same board *)
    rewrite minimax_copy_step. no_line cycleBoard.
    cbn [collect]. unfold bind at 1. enter_spot.
    change (Spec.opponent huPlayer) with aiPlayer.
    destruct fuel as [|fuel]; [done|].
    rewrite minimax_copy_step.
    human_line (aset cycleBoard (Num 2) (Str huPlayer)). leave_spot.
    change (aset (aset cycleBoard (Num 2) (Str huPlayer)) (Num 2) (aget cycleBoard (Num 2)))
      with cycleBoard.
    enter_spot.
    change (aset cycleBoard (Num 5) (Str huPlayer)) with cycleBoard.
    change (Spec.opponent huPlayer) with aiPlayer. by rewrite IHO.
Qed.

(** Given an equal copy of the scenario board instead of the global board,
    minimax does not return at any recursion bound. *)
Lemma copy_spins fuel : minimax fuel 1 aiPlayer (copyStore scenarioBoard) = Spin.
Proof.
  destruct fuel as [|fuel]; [done|].
  rewrite minimax_copy_step. no_line scenarioBoard.
  cbn [collect]. unfold bind at 1. enter_spot.
  change (Spec.opponent aiPlayer) with huPlayer.
  set (b1 := aset scenarioBoard (Num 2) (Str aiPlayer)).
  destruct fuel as [|fuel]; [done|].
  rewrite minimax_copy_step. no_line b1.
  cbn [collect]. unfold bind at 1. enter_spot.
  change (Spec.opponent huPlayer) with aiPlayer.
  destruct fuel as [|fuel]; [done|].
  rewrite minimax_copy_step. human_line (aset b1 (Num 2) (Str huPlayer)). leave_spot.
  change (aset (aset b1 (Num 2) (Str huPlayer)) (Num 2) (aget b1 (Num 2))) with b1.
  enter_spot.
  change (aset b1 (Num 5) (Str huPlayer)) with cycleBoard.
  change (Spec.opponent huPlayer) with aiPlayer.
  by rewrite (proj1 (copy_cycle (S fuel))).
Qed.

(** A separate array on which marking the first free cell of the global
    board completes no line: the loop of minimax keeps re-marking that cell,
    one call deeper each time, and no call ever returns. *)
Lemma separate_array_cycle fuel s (nb : loc) g b (k0 : nat) (rest : array) :
  nb ≠ origBoard s →
  heap s !! origBoard s = Some g →
  filter (λ v, typeofNumber v = true) g = Num k0 :: rest →
  k0 < length b →
  (∀ q r : player, checkWin (<[k0 := Str q]> b) r = None) →
  ∀ (q : player) p, minimax fuel nb p (with_heap (<[nb := <[k0 := Str q]> b]> (heap s)) s) = Spin.
Proof.
  intros Hnb Hg Hspots Hk0 Hline. induction fuel as [|fuel IH]; intros q p; [done|].
  set (s1 := with_heap _ s).
  assert (heap s1 !! origBoard s1 = Some g) as Hg1
    by (unfold s1; simpl; by rewrite lookup_insert_ne).
  assert (heap s1 !! nb = Some (<[k0 := Str q]> b)) as Hb1
    by (unfold s1; simpl; apply lookup_insert_eq).
  rewrite (minimax_step fuel nb p s1 _ _ Hg1 Hb1), !Hline, Hspots.
  rewrite !bool_decide_eq_false_2 by (by intros [? ?]).
  rewrite decide_False by done. cbn [collect]. unfold bind at 1, bind at 1, tryMove.
  unfold bind at 1. rewrite (load_Ret _ _ _ _ Hb1).
  unfold bind at 1. rewrite (assign_Ret _ _ _ _ _ Hb1).
  cbn [aset]. rewrite (decide_True (P := k0 < length (<[k0 := Str q]> b)))
    by (by rewrite length_insert).
  rewrite list_insert_insert_eq. unfold s1, with_heap. simpl. rewrite insert_insert_eq.
  unfold bind at 1.
  assert ((if decide (p = aiPlayer) then minimax fuel nb huPlayer
           else minimax fuel nb aiPlayer)
            (with_heap (<[nb := <[k0 := Str p]> b]> (heap s)) s) = Spin) as Hrec
    by (destruct (decide _); apply IH).
  unfold with_heap in Hrec. simpl in Hrec. by rewrite Hrec.
Qed.

Lemma separate_array_spins fuel s (nb : loc) p g b (k0 : nat) (rest : array) :
  nb ≠ origBoard s →
  heap s !! origBoard s = Some g →
  heap s !! nb = Some b →
  filter (λ v, typeofNumber v = true) g = Num k0 :: rest →
  k0 < length b →
  (∀ r : player, checkWin b r = None) →
  (∀ q r : player, checkWin (<[k0 := Str q]> b) r = None) →
  minimax fuel nb p s = Spin.
Proof.
  intros Hnb Hg Hb Hspots Hk0 Hline0 Hline. destruct fuel as [|fuel]; [done|].
  rewrite (minimax_step fuel nb p s _ _ Hg Hb), !Hline0, Hspots.
  rewrite !bool_decide_eq_false_2 by (by intros [? ?]).
  rewrite decide_False by done. cbn [collect]. unfold bind at 1, bind at 1, tryMove.
  unfold bind at 1. rewrite (load_Ret _ _ _ _ Hb).
  unfold bind at 1. rewrite (assign_Ret _ _ _ _ _ Hb).
  cbn [aset]. rewrite (decide_True (P := k0 < length b)) by done.
  unfold bind at 1.
  pose proof (separate_array_cycle fuel s nb g b k0 rest Hnb Hg Hspots Hk0 Hline p) as Hrec.
  by destruct (decide _); rewrite Hrec.
Qed.

End other_array.

(** C10 fails as stated: on [winStore] the argument is an array of its own
    beside the global board, and minimax returns what the specification's
    search returns, the winning move on cell 8 with score 10. *)
Lemma separate_array_can_be_right :
  heap winStore !! origBoard winStore = Some (encode winCells) ∧
  heap winStore !! 1 = Some (encode winCells) ∧
  1 ≠ origBoard winStore ∧
  minimax 3 1 aiPlayer winStore = lift (Spec.search 3 winCells aiPlayer) winStore ∧
  minimax 3 1 aiPlayer winStore = Ret (Move (Num 8) 10) winStore ∧
  Spec.search 3 winCells aiPlayer = Some (Some 8, 10%Z).
Proof. repeat split; by vm_compute. Qed.

(** C10, amended. emptySquares reads the global board, with or without an
    argument: at every call of minimax the spots tried are the numbers on
    the global board, the argument only serving to look for lines and to be
    written.  Called on the global board itself, as bestSpot does, minimax
    computes the specification's search, for every board.  Called on a
    separate array it is not to be relied on: whenever that array holds no
    line and marking the first free cell of the global board completes none
    on it, no call returns, at any recursion bound; on [tieStore] it scores the only move
    -10 where the search scores it 0; on a copy of the scenario board it
    never returns. *)
Theorem minimax_reads_global_board :
  (∀ fuel nb p s g b,
      heap s !! origBoard s = Some g →
      heap s !! nb = Some b →
      emptySquares s = Ret (filter (λ v, typeofNumber v = true) g) s ∧
      minimax (S fuel) nb p s =
      (if bool_decide (is_Some (checkWin b huPlayer)) then Ret (Move Undefined (-10)) s
       else if bool_decide (is_Some (checkWin b aiPlayer)) then Ret (Move Undefined 10) s
       else if decide (length (filter (λ v, typeofNumber v = true) g) = 0)
            then Ret (Move Undefined 0) s
       else (moves <- collect (minimax fuel) nb p
                        (filter (λ v, typeofNumber v = true) g) [] ;;
             chosen p moves) s)) ∧
  (∀ fuel s (sb : Spec.board) p,
      heap s !! origBoard s = Some (encode sb) →
      minimax fuel (origBoard s) p s = lift (Spec.search fuel sb p) s ∧
      (length (Spec.empties sb) < fuel →
       bestSpot fuel s = Ret (cellValue (Spec.chooseMove sb aiPlayer)) s)) ∧
  (∀ fuel s nb p g b k0 rest,
      nb ≠ origBoard s →
      heap s !! origBoard s = Some g →
      heap s !! nb = Some b →
      filter (λ v, typeofNumber v = true) g = Num k0 :: rest →
      k0 < length b →
      (∀ r, checkWin b r = None) →
      (∀ q r, checkWin (<[k0 := Str q]> b) r = None) →
      minimax fuel nb p s = Spin) ∧
  (heap tieStore !! origBoard tieStore = Some (encode tieCells) ∧
   heap tieStore !! 1 = Some (encode tieCells) ∧
   minimax 3 1 aiPlayer tieStore = Ret (Move (Num 8) (-10)) tieStore ∧
   minimax 3 (origBoard tieStore) aiPlayer tieStore = Ret (Move (Num 8) 0) tieStore ∧
   Spec.search 3 tieCells aiPlayer = Some (Some 8, 0%Z)) ∧
  (heap (copyStore scenarioBoard) !! origBoard (copyStore scenarioBoard) = Some scenarioBoard ∧
   heap (copyStore scenarioBoard) !! 1 = Some scenarioBoard ∧
   ∀ fuel, minimax fuel 1 aiPlayer (copyStore scenarioBoard) = Spin).
Proof.
  split; [|split; [|split; [|split]]].
  - intros fuel nb p s g b Hg Hb. split; [by apply emptySquares_Ret|by apply minimax_step].
  - intros fuel s sb p Hs. split; [by apply minimax_search|by apply bestSpot_chooseMove].
  - intros fuel s nb p g b k0 rest. apply separate_array_spins.
  - repeat split; by vm_compute.
  - split; [done|]. split; [done|]. apply copy_spins.
Qed.

Lemma minimax_reads_global_board_witness :
  emptySquares (copyStore cycleBoard)
    = Ret [Num 2; Num 5; Num 6; Num 7; Num 8] (copyStore cycleBoard) ∧
  minimax 6 (origBoard scenarioStore) aiPlayer scenarioStore
    = lift (Spec.search 6 scenarioCells aiPlayer) scenarioStore ∧
  minimax 12 1 aiPlayer freshCopyStore = Spin.
Proof.
  split; [|split].
  - exact (proj1 (proj1 minimax_reads_global_board 0 1 aiPlayer (copyStore cycleBoard)
                    scenarioBoard cycleBoard eq_refl eq_refl)).
  - exact (proj1 (proj1 (proj2 minimax_reads_global_board) 6 scenarioStore scenarioCells
                    aiPlayer eq_refl)).
  - apply (proj1 (proj2 (proj2 minimax_reads_global_board)) 12 freshCopyStore 1 aiPlayer
             freshBoard freshBoard 0
             [Num 1; Num 2; Num 3; Num 4; Num 5; Num 6; Num 7; Num 8]).
    + done.
    + reflexivity.
    + reflexivity.
    + reflexivity.
    + simpl. lia.
    + intros []; reflexivity.
    + intros [] []; reflexivity.
Defined.

(** ** Play in which every accepted click is answered before the next click *)

Section serial_play.
Implicit Types (s : store) (sb : Spec.board) (p q : player).

Lemma count_middle (l1 l2 : Spec.board) (c : option player) q :
  Spec.count (l1 ++ c :: l2) q =
  Spec.count l1 q + (if decide (c = Some q) then 1 else 0) + Spec.count l2 q.
Proof.
  unfold Spec.count. rewrite filter_app, filter_cons, length_app.
  destruct (decide (c = Some q)); simpl; lia.
Qed.

Lemma count_place sb i p q :
  sb !! i = Some None →
  Spec.count (Spec.place sb i p) q =
  if decide (q = p) then S (Spec.count sb q) else Spec.count sb q.
Proof.
  intros Hi. unfold Spec.place.
  rewrite insert_take_drop by (by eapply lookup_lt_Some).
  assert (Spec.count sb q = Spec.count (take i sb ++ None :: drop (S i) sb) q) as ->
    by (by rewrite take_drop_middle).
  rewrite !count_middle. rewrite (decide_False (P := None = Some q)) by done.
  destruct (decide (q = p)) as [->|Hne].
  - rewrite decide_True by done. lia.
  - rewrite decide_False by congruence. lia.
Qed.

Lemma countMarks_encode sb p : countMarks (encode sb) p = Spec.count sb p.
Proof.
  unfold countMarks, Spec.count. induction sb as [|c sb IH] using rev_ind; [done|].
  rewrite encode_app, !filter_app, !length_app, IH. f_equal.
  rewrite !filter_cons, !filter_nil.
  destruct c as [q|]; simpl; repeat case_decide; done || congruence.
Qed.

Lemma marked_place_other sb i p q j :
  sb !! i = Some None → p ≠ q →
  Spec.marked (Spec.place sb i p) q j = Spec.marked sb q j.
Proof.
  intros Hi Hne. unfold Spec.marked, Spec.place. apply bool_decide_ext.
  destruct (decide (i = j)) as [->|Hij].
  - rewrite list_lookup_insert_eq by (by eapply lookup_lt_Some). rewrite Hi.
    split; congruence.
  - by rewrite list_lookup_insert_ne.
Qed.

(** A mark placed on an Empty cell gives the other player no line. *)
Lemma hasWon_place_other sb i p q :
  sb !! i = Some None → p ≠ q →
  Spec.hasWon (Spec.place sb i p) q = Spec.hasWon sb q.
Proof.
  intros Hi Hne. unfold Spec.hasWon, Spec.checkWin, Spec.winLines, Spec.completed.
  cbn [list_find fst snd]. by rewrite !(marked_place_other _ _ _ _ _ Hi Hne).
Qed.

Lemma outcome_InProgress sb p :
  Spec.outcome sb p = Spec.InProgress → Spec.hasWon sb p = false ∧ Spec.isFull sb = false.
Proof.
  unfold Spec.outcome, Spec.hasWon.
  destruct (Spec.checkWin sb p) eqn:Hw; [done|].
  destruct (Spec.isFull sb); [done|]. intros _. split; [|done].
  apply bool_decide_eq_false_2. by intros [? ?].
Qed.

Lemma terminal_after_move sb i p :
  sb !! i = Some None →
  Spec.hasWon sb (Spec.opponent p) = false →
  Spec.outcome (Spec.place sb i p) p = Spec.InProgress →
  Spec.terminal (Spec.place sb i p) = None.
Proof.
  intros Hi Hopp Ho. apply outcome_InProgress in Ho as [Hp Hfull].
  assert (Spec.hasWon (Spec.place sb i p) (Spec.opponent p) = false) as Hq.
  { rewrite hasWon_place_other; [done..|]. by destruct p. }
  unfold Spec.terminal, huPlayer, aiPlayer.
  destruct p; simpl in *; by rewrite ?Hp, ?Hq, ?Hfull.
Qed.

Lemma terminal_None_hasWon sb p : Spec.terminal sb = None → Spec.hasWon sb p = false.
Proof.
  unfold Spec.terminal.
  destruct (Spec.hasWon sb huPlayer) eqn:HX; [done|].
  destruct (Spec.hasWon sb aiPlayer) eqn:HO; [done|]. by destruct p.
Qed.

Lemma round_betweenRounds s s' : betweenRounds s → round s s' → betweenRounds s'.
Proof.
  intros Hbetween Hround.
  destruct Hround as [id s s' Hclick Hsame|id fuel s s1 s' Hclick Hmore Hcb];
    destruct Hbetween as (sb & Hlen & Hs & Htim & Hstate);
    rewrite (turnClick_encoded _ _ _ Hs Hlen) in Hclick; simpl in Hclick.
  - (* the click schedules nothing: rejected, or the move ends the game *)
    destruct (gameActive s && bool_decide (sb !! id = Some None)) eqn:Hacc.
    + apply andb_true_iff in Hacc as [Hact Hid]. apply bool_decide_eq_true in Hid.
      destruct Hstate as [(_ & Hcount & Hterm)|[Hact' _]]; [|congruence].
      pose proof (afterTurn_board s sb id huPlayer) as Hb.
      destruct (gameActive (afterTurn s sb id huPlayer)) eqn:Hact2.
      * injection Hclick as <-. simpl in Hsame. unfold afterTurn in Hsame.
        destruct (Spec.outcome _ _); simpl in Hsame; lia.
      * injection Hclick as <-. exists (Spec.place sb id huPlayer).
        split; [unfold Spec.place; by rewrite length_insert|]. split; [done|].
        split; [unfold afterTurn; by destruct (Spec.outcome _ _)|].
        right. split; [done|]. right.
        rewrite !count_place by done. rewrite decide_True, decide_False by done. lia.
    + injection Hclick as <-. by exists sb.
  - (* the click is accepted and answered *)
    destruct (gameActive s && bool_decide (sb !! id = Some None)) eqn:Hacc;
      [|injection Hclick as <-; lia].
    apply andb_true_iff in Hacc as [Hact Hid]. apply bool_decide_eq_true in Hid.
    destruct Hstate as [(_ & Hcount & Hterm)|[Hact' _]]; [|congruence].
    set (b1 := Spec.place sb id huPlayer) in *.
    pose proof (afterTurn_board s sb id huPlayer) as Hb.
    destruct (gameActive (afterTurn s sb id huPlayer)) eqn:Hact2;
      [|injection Hclick as <-; unfold afterTurn in Hmore;
        destruct (Spec.outcome _ _); simpl in Hmore; lia].
    injection Hclick as <-.
    assert (Spec.outcome b1 huPlayer = Spec.InProgress) as Ho.
    { unfold afterTurn in Hact2. fold b1 in Hact2.
      by destruct (Spec.outcome b1 huPlayer). }
    assert (Spec.terminal b1 = None) as Hterm1.
    { apply terminal_after_move; [done| |done]. by apply terminal_None_hasWon. }
    set (s1 := with_timers (timers s) _) in Hcb.
    assert (heap s1 !! origBoard s1 = Some (encode b1)) as Hs1 by exact Hb.
    assert (gameActive s1 = true) as Hact1 by exact Hact2.
    assert (timers s1 = 0) as Htim1 by exact Htim.
    unfold aiCallback, bestSpot, bind, gets in Hcb.
    rewrite (minimax_search _ _ _ _ Hs1) in Hcb.
    destruct (Spec.search fuel b1 aiPlayer) as [[[k|] v]|] eqn:Hr; simpl in Hcb; [| |done].
    + apply search_cell in Hr.
      assert (length b1 = 9) as Hlen1 by (unfold b1, Spec.place; by rewrite length_insert).
      rewrite (turn_Num _ _ _ _ Hs1 Hr) in Hcb by (apply lookup_lt_Some in Hr; lia).
      injection Hcb as <-. exists (Spec.place b1 k aiPlayer).
      split; [unfold Spec.place; by rewrite length_insert|].
      split; [apply afterTurn_board|].
      split; [by rewrite afterTurn_timers|].
      assert (Spec.count (Spec.place b1 k aiPlayer) X = Spec.count (Spec.place b1 k aiPlayer) O)
        as Heq.
      { rewrite !(count_place b1) by done. unfold b1. rewrite !count_place by done.
        repeat case_decide; done || lia. }
      unfold afterTurn.
      destruct (Spec.outcome (Spec.place b1 k aiPlayer) aiPlayer) eqn:Ho2; simpl.
      * left. split; [exact Hact2|]. split; [done|].
        apply (terminal_after_move b1 k aiPlayer); [done| |done].
        by apply terminal_None_hasWon.
      * right. split; [done|]. by left.
      * right. split; [done|]. by left.
    + apply search_terminal_None in Hr. congruence.
Qed.

Lemma round_reachable s s' : reachable s → round s s' → reachable s'.
Proof.
  intros Hreach Hround. unfold reachable in *.
  destruct Hround as [id s s' Hclick _|id fuel s s1 s' Hclick Hmore Hcb].
  - eapply rtc_r; [exact Hreach|]. exact (step_click id s s' Hclick).
  - eapply rtc_r; [eapply rtc_r; [exact Hreach|exact (step_click id s s1 Hclick)]|].
    exact (step_timer fuel s1 s' (timers s) Hmore Hcb).
Qed.

End serial_play.

(** Play without a click during a pending callback keeps the counts of the
    specification: every store reached by whole rounds from a fresh game is
    reachable, has nothing pending, and its board carries as many X as O, or
    one X more. *)
Theorem serial_play_alternates (s : store) :
  rtc round fresh_game s →
  reachable s ∧
  ∃ a, heap s !! origBoard s = Some a ∧ timers s = 0 ∧
       (countMarks a huPlayer = countMarks a aiPlayer ∨
        countMarks a huPlayer = S (countMarks a aiPlayer)).
Proof.
  intros Hplay.
  assert (reachable s ∧ betweenRounds s) as [Hreach (sb & _ & Hs & Htim & Hstate)].
  { apply (rtc_ind_r (R := round) (λ s, reachable s ∧ betweenRounds s) fresh_game);
      [| |exact Hplay].
    - split; [apply rtc_refl|]. exists (replicate 9 None).
      split; [done|]. split; [apply fresh_game_board|]. split; [done|]. by left.
    - intros s1 s2 _ Hround [Hr Hb]. split; [by eapply round_reachable|].
      by eapply round_betweenRounds. }
  split; [done|]. exists (encode sb). split; [done|]. split; [done|].
  rewrite !countMarks_encode. unfold huPlayer, aiPlayer.
  destruct Hstate as [(_ & Heq & _)|[_ [Heq|Heq]]]; rewrite Heq; auto.
Qed.

(** ** Flag, status line and board in the reachable stores *)

Section consistency.
Implicit Types (s : store) (sb : Spec.board) (p q : player).

Lemma outcome_Win sb p q line :
  Spec.outcome sb p = Spec.Win q line → q = p ∧ Spec.hasWon sb p = true.
Proof.
  unfold Spec.outcome, Spec.hasWon. destruct (Spec.checkWin sb p) eqn:Hw.
  - intros [= <- _]. split; [done|]. by apply bool_decide_eq_true_2.
  - by destruct (Spec.isFull sb).
Qed.

Lemma outcome_Tie sb p :
  Spec.outcome sb p = Spec.Tie → Spec.hasWon sb p = false ∧ Spec.isFull sb = true.
Proof.
  unfold Spec.outcome, Spec.hasWon. destruct (Spec.checkWin sb p) eqn:Hw; [done|].
  destruct (Spec.isFull sb); [|done]. intros _. split; [|done].
  apply bool_decide_eq_false_2. by intros [? ?].
Qed.

Lemma search_terminal d sb p v :
  Spec.terminal sb = Some v → Spec.search (S d) sb p = Some (None, v).
Proof. intros Ht. cbn [Spec.search]. by rewrite Ht. Qed.

(** The store after a move on an Empty cell of a board that was not
    terminal: flag and status line go with the new board. *)
Lemma afterTurn_consistent s sb k p :
  length sb = 9 → heap s !! origBoard s = Some (encode sb) →
  Spec.terminal sb = None → gameActive s = true →
  sb !! k = Some None →
  consistent (afterTurn s sb k p) (Spec.place sb k p).
Proof.
  intros Hlen Hs Hterm Hact Hk.
  pose proof (terminal_None_hasWon sb (Spec.opponent p) Hterm) as Hopp.
  assert (Spec.hasWon (Spec.place sb k p) (Spec.opponent p) = false) as Hopp'.
  { rewrite hasWon_place_other; [done..|]. by destruct p. }
  split; [unfold Spec.place; by rewrite length_insert|].
  split; [apply afterTurn_board|].
  unfold afterTurn, verdict.
  destruct (Spec.outcome (Spec.place sb k p) p) as [|q line|] eqn:Ho.
  - rewrite (terminal_after_move _ _ _ Hk Hopp Ho). simpl. rewrite Hact.
    apply outcome_InProgress in Ho as [Hp _].
    split; [done|]. destruct p; simpl in *; unfold huPlayer, aiPlayer; congruence.
  - apply outcome_Win in Ho as [-> Hp]. unfold Spec.terminal, huPlayer, aiPlayer.
    destruct p; simpl in *; rewrite ?Hp, ?Hopp'; done.
  - apply outcome_Tie in Ho as [Hp Hfull]. unfold Spec.terminal, huPlayer, aiPlayer.
    destruct p; simpl in *; rewrite ?Hp, ?Hopp', ?Hfull; split; done || congruence.
Qed.

Lemma consistent_terminal s sb :
  consistent s sb → (gameActive s = true ↔ Spec.terminal sb = None).
Proof.
  intros (_ & _ & Hv & _). unfold verdict in Hv.
  destruct (Spec.terminal sb); destruct Hv as [Hact _]; split; congruence.
Qed.

(** Flag and status line are all that [verdict] reads. *)
Lemma consistent_same_board s s' sb :
  consistent s sb →
  heap s' !! origBoard s' = heap s !! origBoard s →
  gameActive s' = gameActive s →
  (status s' = status s ∨
   (gameActive s = true ∧
    status s' ≠ MsgYouWin ∧ status s' ≠ MsgYouLose ∧ status s' ≠ MsgTie)) →
  consistent s' sb.
Proof.
  intros (Hlen & Hs & Hv & Hboth) Hh Hact Hst.
  split; [done|]. split; [congruence|]. split; [|done].
  unfold verdict in *. destruct (Spec.terminal sb).
  - destruct Hv as [Hf Hfin]. split; [congruence|].
    destruct Hst as [->|[? _]]; [done|congruence].
  - destruct Hv as (Ht & H1 & H2 & H3). split; [congruence|].
    destruct Hst as [->|(_ & ? & ? & ?)]; done.
Qed.

(** One event from a consistent store: either the board, the flag and the
    status line stay, or the game was going on and one Empty cell gets a
    mark.  The global never comes to refer to another array. *)
Lemma step_consistent s s' sb :
  consistent s sb → step s s' →
  origBoard s' = origBoard s ∧
  ((consistent s' sb ∧ heap s' = heap s ∧
    gameActive s' = gameActive s ∧ status s' = status s) ∨
   (gameActive s = true ∧
    ∃ k p, sb !! k = Some None ∧ consistent s' (Spec.place sb k p))).
Proof.
  intros Hc Hstep. pose proof Hc as (Hlen & Hs & Hv & Hboth).
  pose proof (consistent_terminal _ _ Hc) as Hterm.
  destruct Hstep as [id s s' Hclick|fuel s s' n Hn Hcb].
  - rewrite (turnClick_encoded _ _ _ Hs Hlen) in Hclick. simpl in Hclick.
    destruct (gameActive s && bool_decide (sb !! id = Some None)) eqn:Hacc;
      [|injection Hclick as <-; split; [done|by left]].
    apply andb_true_iff in Hacc as [Hact Hid]. apply bool_decide_eq_true in Hid.
    pose proof (afterTurn_consistent s sb id huPlayer Hlen Hs (proj1 Hterm Hact) Hact Hid)
      as Hc1.
    assert (origBoard (afterTurn s sb id huPlayer) = origBoard s) as Hg
      by (unfold afterTurn; by destruct (Spec.outcome _ _)).
    destruct (gameActive (afterTurn s sb id huPlayer)) eqn:Hact1;
      injection Hclick as <-; (split; [done|]); right; (split; [done|]);
      exists id, huPlayer; (split; [done|]); [|done].
    apply (consistent_same_board _ _ _ Hc1); [done..|]. right. by repeat split.
  - set (s0 := with_timers n s) in *.
    assert (consistent s0 sb) as Hc0 by (apply (consistent_same_board _ _ _ Hc); auto).
    unfold aiCallback, bestSpot, bind, gets in Hcb.
    rewrite (minimax_search _ _ _ _ (Hs : heap s0 !! origBoard s0 = _)) in Hcb.
    destruct (Spec.search fuel sb aiPlayer) as [[[k|] v]|] eqn:Hr; simpl in Hcb; [| |done].
    + pose proof (search_cell _ _ _ _ _ Hr) as Hk.
      rewrite (turn_Num s0 sb k aiPlayer Hs Hk) in Hcb by (apply lookup_lt_Some in Hk; lia).
      injection Hcb as <-.
      assert (Spec.terminal sb = None) as Hnt.
      { destruct (Spec.terminal sb) as [v'|] eqn:Ht; [|done].
        destruct fuel as [|d]; [done|]. by rewrite (search_terminal _ _ _ _ Ht) in Hr. }
      assert (gameActive s = true) as Hact by (by apply Hterm).
      split; [unfold afterTurn; by destruct (Spec.outcome _ _)|].
      right. split; [done|]. exists k, aiPlayer. split; [done|].
      by apply afterTurn_consistent.
    + rewrite (turn_Undefined s0 _ _ Hs) in Hcb. injection Hcb as <-.
      split; [done|]. left. by repeat split.
Qed.

Lemma fresh_game_consistent : consistent fresh_game (replicate 9 None).
Proof. repeat split; done. Qed.

Lemma reachable_consistent s : reachable s → ∃ sb, consistent s sb.
Proof.
  intros Hreach.
  apply (rtc_ind_r (R := step) (λ s, ∃ sb, consistent s sb) fresh_game); [| |exact Hreach].
  - exists (replicate 9 None). apply fresh_game_consistent.
  - intros s1 s2 _ Hstep [sb Hc].
    destruct (step_consistent _ _ _ Hc Hstep) as [_ [(Hc' & _)|(_ & k & p & _ & Hc')]];
      eauto.
Qed.

End consistency.

Section reachable_facts.
Implicit Types (s : store) (sb : Spec.board) (p q : player).

Lemma won_encode sb p : is_Some (checkWin (encode sb) p) ↔ Spec.hasWon sb p = true.
Proof. by rewrite <- checkWin_encode_is_Some, bool_decide_eq_true. Qed.

Lemma full_encode sb :
  filter (λ v, typeofNumber v = true) (encode sb) = [] ↔ Spec.isFull sb = true.
Proof.
  rewrite filter_encode, isFull_empties, bool_decide_eq_true.
  split; [apply fmap_nil_inv|by intros ->].
Qed.


Lemma encode_lookup_Num sb i n :
  encode sb !! i = Some (Num n) ↔ n = i ∧ sb !! i = Some None.
Proof.
  rewrite encode_lookup. destruct (sb !! i) as [[q|]|]; simpl; split;
    (intros [= ->] || intros [-> ?]); done.
Qed.

Lemma step_reachable s s' : reachable s → step s s' → reachable s'.
Proof. intros Hr Hstep. by eapply rtc_r. Qed.


(** Two clicks with no callback between them, and a third that wins. *)
Lemma twoClicks_reachable : reachable twoClicks.
Proof.
  apply (rtc_l _ _ oneClick); [apply (step_click 0); by vm_compute|].
  apply (rtc_l _ _ twoClicks); [apply (step_click 1); by vm_compute|]. done.
Qed.

Lemma threeClicks_reachable : reachable threeClicks.
Proof.
  apply (rtc_l _ _
    (Store {[ 0 := [Str X; Num 1; Num 2; Num 3; Num 4; Num 5; Num 6; Num 7; Num 8] ]}
           0 true MsgThinking 1)); [apply (step_click 0); by vm_compute|].
  apply (rtc_l _ _
    (Store {[ 0 := [Str X; Str X; Num 2; Num 3; Num 4; Num 5; Num 6; Num 7; Num 8] ]}
           0 true MsgThinking 2)); [apply (step_click 1); by vm_compute|].
  apply (rtc_l _ _ threeClicks); [apply (step_click 2); by vm_compute|]. done.
Qed.

End reachable_facts.

(** In every store reachable by clicks and callbacks, in whatever order they
    come, the flag and the status line say what the board says: the game is
    over exactly when checkWin finds a line for one of the players or
    emptySquares finds no number; "You Win" and "You Lose" stand exactly when
    the Human, respectively the AI, holds a line; "It's a Tie!" stands
    exactly on a full board without a line; and never do both hold a line. *)
Theorem flag_and_status_follow_board (s : store) :
  reachable s →
  ∃ a, heap s !! origBoard s = Some a ∧
       (gameActive s = false ↔
          is_Some (checkWin a huPlayer) ∨ is_Some (checkWin a aiPlayer) ∨
          filter (λ v, typeofNumber v = true) a = []) ∧
       (status s = MsgYouWin ↔ is_Some (checkWin a huPlayer)) ∧
       (status s = MsgYouLose ↔ is_Some (checkWin a aiPlayer)) ∧
       (status s = MsgTie ↔
          filter (λ v, typeofNumber v = true) a = [] ∧
          checkWin a huPlayer = None ∧ checkWin a aiPlayer = None) ∧
       ¬ (is_Some (checkWin a huPlayer) ∧ is_Some (checkWin a aiPlayer)).
Proof.
  intros Hreach. destruct (reachable_consistent s Hreach) as (sb & _ & Hs & Hv & Hboth).
  exists (encode sb). split; [done|].
  assert (∀ p, checkWin (encode sb) p = None ↔ Spec.hasWon sb p = false) as Hnone.
  { intros p. rewrite eq_None_not_Some, won_encode. by destruct (Spec.hasWon sb p). }
  rewrite !Hnone, !won_encode, full_encode. unfold verdict, Spec.terminal in Hv.
  destruct (Spec.hasWon sb huPlayer), (Spec.hasWon sb aiPlayer), (Spec.isFull sb);
    try (specialize (Hboth eq_refl); discriminate Hboth);
    simpl in Hv; destruct Hv as [Hact Hst];
    try (destruct Hst as (? & ? & ?)); rewrite ?Hact, ?Hst;
    repeat split; intros; try done; intuition congruence.
Qed.

Lemma flag_and_status_follow_board_witness :
  ∃ a, heap threeClicks !! origBoard threeClicks = Some a ∧
       (gameActive threeClicks = false ↔
          is_Some (checkWin a huPlayer) ∨ is_Some (checkWin a aiPlayer) ∨
          filter (λ v, typeofNumber v = true) a = []) ∧
       (status threeClicks = MsgYouWin ↔ is_Some (checkWin a huPlayer)) ∧
       (status threeClicks = MsgYouLose ↔ is_Some (checkWin a aiPlayer)) ∧
       (status threeClicks = MsgTie ↔
          filter (λ v, typeofNumber v = true) a = [] ∧
          checkWin a huPlayer = None ∧ checkWin a aiPlayer = None) ∧
       ¬ (is_Some (checkWin a huPlayer) ∧ is_Some (checkWin a aiPlayer)).
Proof. apply (flag_and_status_follow_board threeClicks). apply threeClicks_reachable. Defined.

(** In every reachable store bestSpot returns at recursion bound 10 (and at
    any larger one), handing back the store: [undefined] when the game is
    over, since the terminal results of minimax carry no index, and
    otherwise the index of a slot of the board that holds that very index,
    an Empty cell. *)
Theorem bestSpot_in_reachable (s : store) :
  reachable s →
  ∃ a v, heap s !! origBoard s = Some a ∧
         (∀ fuel, 10 ≤ fuel → bestSpot fuel s = Ret v s) ∧
         (gameActive s = false → v = Undefined) ∧
         (gameActive s = true → ∃ k, v = Num k ∧ k < 9 ∧ a !! k = Some (Num k)).
Proof.
  intros Hreach. destruct (reachable_consistent s Hreach) as [sb Hc].
  pose proof (consistent_terminal _ _ Hc) as Hterm.
  destruct Hc as (Hlen & Hs & _ & _).
  exists (encode sb), (cellValue (Spec.chooseMove sb aiPlayer)).
  split; [done|]. split; [|split].
  - intros fuel Hfuel. apply bestSpot_chooseMove; [done|].
    pose proof (length_empties sb). lia.
  - intros Hover. unfold Spec.chooseMove.
    destruct (Spec.terminal sb) as [v|] eqn:Ht; [|destruct Hterm as [_ Hact]; by rewrite Hact in Hover].
    by rewrite (search_terminal _ _ _ _ Ht).
  - intros Hact. apply Hterm in Hact. unfold Spec.chooseMove.
    destruct (search_total (S (length sb)) sb aiPlayer) as [[[k|] v] Hr].
    + pose proof (length_empties sb). lia.
    + rewrite Hr. pose proof (search_cell _ _ _ _ _ Hr) as Hk.
      exists k. split; [done|]. split; [apply lookup_lt_Some in Hk; lia|].
      by apply encode_lookup_Num.
    + apply search_terminal_None in Hr. congruence.
Qed.

Lemma bestSpot_in_reachable_witness :
  ∃ a v, heap threeClicks !! origBoard threeClicks = Some a ∧
         (∀ fuel, 10 ≤ fuel → bestSpot fuel threeClicks = Ret v threeClicks) ∧
         (gameActive threeClicks = false → v = Undefined) ∧
         (gameActive threeClicks = true → ∃ k, v = Num k ∧ k < 9 ∧ a !! k = Some (Num k)).
Proof. apply (bestSpot_in_reachable threeClicks). apply threeClicks_reachable. Defined.



(** ** The Human cannot win a game played round by round *)

Section never_loses.
Implicit Types (s : store) (sb : Spec.board) (p q : player).

Lemma encode_inj sb sb' : encode sb = encode sb' → sb = sb'.
Proof.
  intros Heq. apply list_eq. intros i.
  assert (encode sb !! i = encode sb' !! i) as Hi by (by rewrite Heq).
  rewrite !encode_lookup in Hi.
  destruct (sb !! i) as [[p|]|], (sb' !! i) as [[q|]|]; simpl in Hi; congruence.
Qed.

Lemma reachable_board s sb :
  reachable s → heap s !! origBoard s = Some (encode sb) → consistent s sb.
Proof.
  intros Hreach Hs. destruct (reachable_consistent s Hreach) as [sb' Hc].
  pose proof Hc as (_ & Hs' & _). rewrite Hs in Hs'. injection Hs' as Heq.
  by rewrite (encode_inj _ _ Heq).
Qed.

(** Nothing improves on a best score that is the best there is. *)
Lemma select_at_optimum p (best : nat * Z) (cs : list (nat * Z)) :
  isOptimum p best.2 = true →
  (∀ c, c ∈ cs → c.2 ∈ [(-10)%Z; 0%Z; 10%Z]) →
  Spec.select p best cs = best.
Proof.
  intros Hopt. induction cs as [|c cs IH]; intros Hcs; [done|].
  rewrite select_cons.
  assert (Spec.improves p c best = false) as ->.
  { assert (c.2 ∈ [(-10)%Z; 0%Z; 10%Z]) as Hc by (apply Hcs; left).
    destruct p; simpl in *; apply Z.ltb_ge; set_unfold; lia. }
  apply IH. intros c' Hc'. apply Hcs. by right.
Qed.

(** The scan with the early way out selects what the full scan selects. *)
Lemma scanFrom_select (child child' : nat → option Z) p ks cs (best : nat * Z) :
  Spec.scoreAll child ks = Some cs →
  (∀ k v, k ∈ ks → child k = Some v → child' k = Some v) →
  (∀ c, c ∈ cs → c.2 ∈ [(-10)%Z; 0%Z; 10%Z]) →
  scanFrom child' p ks best = Some (Spec.select p best cs).
Proof.
  revert cs best. induction ks as [|k ks IH]; intros cs best Hall Hext Hcs.
  - injection Hall as <-. simpl. by destruct (isOptimum p best.2).
  - simpl in Hall. destruct (child k) as [v|] eqn:Hk; [|done].
    destruct (Spec.scoreAll child ks) as [cs'|] eqn:Hall'; [|done].
    injection Hall as <-. cbn [scanFrom].
    destruct (isOptimum p best.2) eqn:Hopt; [by rewrite select_at_optimum|].
    rewrite (Hext k v) by (done || left). rewrite select_cons.
    apply IH; [done| |].
    + intros k' v' Hk'. apply Hext. by right.
    + intros c Hc. apply Hcs. by right.
Qed.

(** Where the search returns, the search with the early way out returns the
    same. *)
Lemma fsearch_search d sb p r :
  Spec.search d sb p = Some r → fsearch d sb p = Some r.
Proof.
  revert sb p r. induction d as [|d IH]; intros sb p r; [done|].
  cbn [Spec.search fsearch]. destruct (Spec.terminal sb); [done|].
  destruct (Spec.scoreAll _ (Spec.empties sb)) as [cs|] eqn:Hall; [|done].
  destruct (Spec.empties sb) as [|k0 ks]; [by injection Hall as <-|].
  simpl in Hall.
  destruct (Spec.search d (Spec.place sb k0 p) (Spec.opponent p)) as [r0|] eqn:Hr0; [|done].
  simpl in Hall.
  destruct (Spec.scoreAll _ ks) as [cs'|] eqn:Hall'; [|done].
  injection Hall as <-. intros [= <-].
  rewrite (IH _ _ _ Hr0).
  erewrite scanFrom_select; [done|exact Hall'| |].
  - intros k v _ Hk. simpl in Hk. apply fmap_Some in Hk as (r' & Hr' & ->).
    by rewrite (IH _ _ _ Hr').
  - intros c Hc. destruct (scoreAll_elem _ _ _ _ Hall' Hc) as [_ Hcv]. simpl in Hcv.
    apply fmap_Some in Hcv as (r' & Hr' & ->). by eapply search_score.
Qed.

(** What passing the checker says about one Empty cell. *)
Lemma safe_cell n sb id :
  safe (S n) sb = true → sb !! id = Some None →
  let b1 := Spec.place sb id huPlayer in
  (∀ q line, Spec.outcome b1 huPlayer ≠ Spec.Win q line) ∧
  (Spec.outcome b1 huPlayer = Spec.InProgress →
   ∃ k v, fsearch 10 b1 aiPlayer = Some (Some k, v) ∧
          (Spec.outcome (Spec.place b1 k aiPlayer) aiPlayer = Spec.InProgress →
           safe n (Spec.place b1 k aiPlayer) = true)).
Proof.
  intros Hsafe Hid. cbn [safe] in Hsafe. rewrite forallb_forall in Hsafe.
  specialize (Hsafe id). cbv zeta in Hsafe |- *.
  assert (In id (Spec.empties sb)) as Hin by (by apply list_elem_of_In, elem_of_empties).
  specialize (Hsafe Hin).
  destruct (Spec.outcome (Spec.place sb id huPlayer) huPlayer) eqn:Ho; [|done..].
  split; [done|]. intros _.
  destruct (fsearch 10 (Spec.place sb id huPlayer) aiPlayer) as [[[k|] v]|]; [|done..].
  exists k, v. split; [done|]. intros Ho2. by rewrite Ho2 in Hsafe.
Qed.

(** The result of a search that returns does not depend on the depth. *)
Lemma search_agree d d' sb p r r' :
  Spec.search d sb p = Some r → Spec.search d' sb p = Some r' → r = r'.
Proof.
  intros Hr Hr'.
  apply (search_mono _ (d `max` d')) in Hr; [|lia].
  apply (search_mono _ (d `max` d')) in Hr'; [|lia]. congruence.
Qed.

Lemma round_humanHeldOff s s' : humanHeldOff s → round s s' → humanHeldOff s'.
Proof.
  intros [Hreach (sb & Hs & HX & Hsafe)] Hround.
  split; [by eapply round_reachable|].
  pose proof (reachable_board _ _ Hreach Hs) as Hc.
  pose proof (consistent_terminal _ _ Hc) as Hterm.
  destruct Hc as (Hlen & _ & _ & _).
  destruct Hround as [id s s' Hclick Hsame|id fuel s s1 s' Hclick Hmore Hcb];
    rewrite (turnClick_encoded _ _ _ Hs Hlen) in Hclick; simpl in Hclick.
  - destruct (gameActive s && bool_decide (sb !! id = Some None)) eqn:Hacc;
      [|injection Hclick as <-; by exists sb].
    apply andb_true_iff in Hacc as [Hact Hid]. apply bool_decide_eq_true in Hid.
    destruct (Hsafe Hact) as [[|n] Hn]; [done|].
    destruct (safe_cell n sb id Hn Hid) as [Hnowin _]. cbv zeta in Hnowin.
    destruct (gameActive (afterTurn s sb id huPlayer)) eqn:Hact2; injection Hclick as <-.
    + simpl in Hsame. rewrite afterTurn_timers in Hsame. lia.
    + exists (Spec.place sb id huPlayer). split; [apply afterTurn_board|].
      split; [|congruence].
      destruct (Spec.outcome (Spec.place sb id huPlayer) huPlayer) as [|q line|] eqn:Ho.
      * by apply outcome_InProgress in Ho as [? _].
      * by destruct (Hnowin q line).
      * by apply outcome_Tie in Ho as [? _].
  - destruct (gameActive s && bool_decide (sb !! id = Some None)) eqn:Hacc;
      [|injection Hclick as <-; lia].
    apply andb_true_iff in Hacc as [Hact Hid]. apply bool_decide_eq_true in Hid.
    destruct (Hsafe Hact) as [[|n] Hn]; [done|].
    destruct (safe_cell n sb id Hn Hid) as [_ Hreply]. cbv zeta in Hreply.
    set (b1 := Spec.place sb id huPlayer) in *.
    pose proof (afterTurn_board s sb id huPlayer) as Hb.
    destruct (gameActive (afterTurn s sb id huPlayer)) eqn:Hact2;
      injection Hclick as <-; [|rewrite afterTurn_timers in Hmore; lia].
    assert (Spec.outcome b1 huPlayer = Spec.InProgress) as Ho.
    { unfold afterTurn in Hact2. fold b1 in Hact2.
      by destruct (Spec.outcome b1 huPlayer). }
    destruct (Hreply Ho) as (k & v & Hr10 & Hnext).
    pose proof (outcome_InProgress _ _ Ho) as [HX1 _].
    assert (Spec.terminal b1 = None) as Hterm1.
    { apply terminal_after_move; [done| |done].
      apply terminal_None_hasWon. by apply Hterm. }
    set (s1 := with_timers (timers s) _) in Hcb.
    assert (heap s1 !! origBoard s1 = Some (encode b1)) as Hs1 by exact Hb.
    assert (gameActive s1 = true) as Hact1 by exact Hact2.
    unfold aiCallback, bestSpot, bind, gets in Hcb.
    rewrite (minimax_search _ _ _ _ Hs1) in Hcb.
    destruct (Spec.search fuel b1 aiPlayer) as [r|] eqn:Hr; simpl in Hcb; [|done].
    assert (length b1 = 9) as Hlen1 by (unfold b1, Spec.place; by rewrite length_insert).
    destruct (search_total 10 b1 aiPlayer) as [r10 Hr10'];
      [pose proof (length_empties b1); lia|].
    pose proof (search_agree _ _ _ _ _ _ Hr Hr10') as ->.
    rewrite (fsearch_search _ _ _ _ Hr10') in Hr10. injection Hr10 as ->. simpl in Hcb.
    pose proof (search_cell _ _ _ _ _ Hr) as Hk.
    rewrite (turn_Num _ _ _ _ Hs1 Hk) in Hcb by (apply lookup_lt_Some in Hk; lia).
    injection Hcb as <-. exists (Spec.place b1 k aiPlayer).
    split; [apply afterTurn_board|].
    split; [by rewrite hasWon_place_other|].
    unfold afterTurn.
    destruct (Spec.outcome (Spec.place b1 k aiPlayer) aiPlayer) eqn:Ho2; simpl; [|done..].
    intros _. exists n. by apply Hnext.
Qed.

Lemma fresh_game_safe : safe 5 (replicate 9 None) = true.
Proof. by vm_compute. Qed.

(** The first round of a game: the Human clicks cell 0, the callback of that
    click answers on cell 4. *)
Lemma roundOne_played : round fresh_game roundOne.
Proof.
  apply (round_answer 0 10 fresh_game oneClick roundOne); [by vm_compute|done|].
  set (sb := [Some X; None; None; None; None; None; None; None; None] : Spec.board).
  assert (heap (with_timers 0 oneClick) !! origBoard (with_timers 0 oneClick)
          = Some (encode sb)) as Hs by done.
  change (timers fresh_game) with 0. unfold aiCallback, bind.
  rewrite (bestSpot_chooseMove 10 _ sb Hs) by (vm_compute; lia).
  assert (Spec.chooseMove sb aiPlayer = Some 4) as ->.
  { unfold Spec.chooseMove.
    destruct (search_total (S (length sb)) sb aiPlayer) as [r Hr]; [vm_compute; lia|].
    rewrite Hr. apply fsearch_search in Hr. vm_compute in Hr. by injection Hr as <-. }
  cbn [cellValue]. by rewrite (turn_Num _ sb 4 aiPlayer Hs) by (done || lia).
Qed.

End never_loses.

(** When every accepted click is answered by its callback before the next
    click, the Human never wins: whatever cells the Human clicks, in no store
    reached from a fresh game does checkWin find a line of X, and the status
    line never reads "You Win". *)
Theorem human_never_wins (s : store) :
  rtc round fresh_game s →
  status s ≠ MsgYouWin ∧
  ∃ a, heap s !! origBoard s = Some a ∧ checkWin a huPlayer = None.
Proof.
  intros Hplay.
  assert (humanHeldOff s) as [Hreach (sb & Hs & HX & _)].
  { apply (rtc_ind_r (R := round) humanHeldOff fresh_game); [| |exact Hplay].
    - split; [apply rtc_refl|]. exists (replicate 9 None).
      split; [apply fresh_game_board|]. split; [done|].
      intros _. exists 5. apply fresh_game_safe.
    - intros s1 s2 _ Hround Hheld. by eapply round_humanHeldOff. }
  pose proof (reachable_board _ _ Hreach Hs) as (_ & _ & Hv & _).
  split.
  - unfold verdict, Spec.terminal in Hv. rewrite HX in Hv.
    destruct (Spec.hasWon sb aiPlayer); [by destruct Hv as [_ ->]|].
    destruct (Spec.isFull sb); [by destruct Hv as [_ ->]|].
    by destruct Hv as (_ & ? & _).
  - exists (encode sb). split; [done|].
    apply eq_None_not_Some. rewrite won_encode. congruence.
Qed.

Lemma serial_play_alternates_witness :
  reachable roundOne ∧
  ∃ a, heap roundOne !! origBoard roundOne = Some a ∧ timers roundOne = 0 ∧
       (countMarks a huPlayer = countMarks a aiPlayer ∨
        countMarks a huPlayer = S (countMarks a aiPlayer)).
Proof.
  apply (serial_play_alternates roundOne).
  apply (rtc_l _ _ roundOne); [apply roundOne_played|apply rtc_refl].
Defined.

Lemma human_never_wins_witness :
  status roundOne ≠ MsgYouWin ∧
  ∃ a, heap roundOne !! origBoard roundOne = Some a ∧ checkWin a huPlayer = None.
Proof.
  apply (human_never_wins roundOne).
  apply (rtc_l _ _ roundOne); [apply roundOne_played|apply rtc_refl].
Defined.

(** ** Pending callbacks and the lead of X *)

Section pending.
Implicit Types (s : store) (sb : Spec.board) (p q : player).

(** The four things an event can be in a consistent store: a click that is
    ignored, a click that is accepted, a callback that finds the game over,
    a callback that moves. *)
Lemma step_cases s s' sb :
  consistent s sb → step s s' →
  s' = s ∨
  (gameActive s = true ∧ ∃ id, sb !! id = Some None ∧ s' = afterClick s sb id) ∨
  (gameActive s = false ∧ ∃ n, timers s = S n ∧ s' = with_timers n s) ∨
  (gameActive s = true ∧
   ∃ n k, timers s = S n ∧ sb !! k = Some None ∧
          s' = afterTurn (with_timers n s) sb k aiPlayer).
Proof.
  intros Hc Hstep. pose proof (consistent_terminal _ _ Hc) as Hterm.
  destruct Hc as (Hlen & Hs & _ & _).
  destruct Hstep as [id s s' Hclick|fuel s s' n Hn Hcb].
  - rewrite (turnClick_encoded _ _ _ Hs Hlen) in Hclick. simpl in Hclick.
    destruct (gameActive s && bool_decide (sb !! id = Some None)) eqn:Hacc;
      injection Hclick as <-; [|by left].
    apply andb_true_iff in Hacc as [Hact Hid]. apply bool_decide_eq_true in Hid.
    right; left. split; [done|]. by exists id.
  - set (s0 := with_timers n s) in *.
    unfold aiCallback, bestSpot, bind, gets in Hcb.
    rewrite (minimax_search _ _ _ _ (Hs : heap s0 !! origBoard s0 = _)) in Hcb.
    destruct (Spec.search fuel sb aiPlayer) as [[[k|] v]|] eqn:Hr; simpl in Hcb; [| |done].
    + pose proof (search_cell _ _ _ _ _ Hr) as Hk.
      rewrite (turn_Num s0 sb k aiPlayer Hs Hk) in Hcb by (apply lookup_lt_Some in Hk; lia).
      injection Hcb as <-. right; right; right.
      split; [|by exists n, k]. apply Hterm.
      destruct (Spec.terminal sb) as [v'|] eqn:Ht; [|done].
      destruct fuel as [|d]; [done|]. by rewrite (search_terminal _ _ _ _ Ht) in Hr.
    + rewrite (turn_Undefined s0 _ _ Hs) in Hcb. injection Hcb as <-.
      right; right; left. split; [|by exists n].
      apply search_terminal_None in Hr. destruct (gameActive s) eqn:Hact; [|done].
      destruct Hterm as [Hterm _]. specialize (Hterm eq_refl). congruence.
Qed.

Lemma afterTurn_active s sb k p :
  gameActive (afterTurn s sb k p) = true → gameActive s = true.
Proof. unfold afterTurn. by destruct (Spec.outcome _ p). Qed.

(** While the game goes on, X leads O by the number of pending callbacks. *)
Lemma reachable_lead s :
  reachable s →
  ∃ sb, consistent s sb ∧
        (gameActive s = true → Spec.count sb X = Spec.count sb O + timers s).
Proof.
  intros Hreach.
  apply (rtc_ind_r (R := step)
           (λ s, reachable s ∧ ∃ sb, consistent s sb ∧
                 (gameActive s = true → Spec.count sb X = Spec.count sb O + timers s))
           fresh_game) in Hreach as [_ H]; [done| |].
  - split; [apply rtc_refl|]. exists (replicate 9 None).
    split; [apply fresh_game_consistent|done].
  - clear s Hreach. intros s s' _ Hstep (Hreach & sb & Hc & Hlead).
    assert (reachable s') as Hreach' by (by eapply step_reachable).
    split; [done|].
    destruct (step_cases _ _ _ Hc Hstep)
      as [->|[(Hact & id & Hid & ->)|[(Hover & n & Hn & ->)|(Hact & n & k & Hn & Hk & ->)]]].
    + by exists sb.
    + exists (Spec.place sb id huPlayer). split.
      * apply reachable_board; [done|]. unfold afterClick.
        pose proof (afterTurn_board s sb id huPlayer).
        by destruct (gameActive (afterTurn s sb id huPlayer)).
      * unfold afterClick.
        destruct (gameActive (afterTurn s sb id huPlayer)) eqn:Hact1; [|congruence].
        intros _. simpl. rewrite afterTurn_timers, !count_place by done.
        rewrite (Hlead Hact). repeat case_decide; done || lia.
    + exists sb. split; [by apply reachable_board; [|destruct Hc as (_ & ? & _)]|].
      simpl. congruence.
    + exists (Spec.place sb k aiPlayer). split.
      * apply reachable_board; [done|]. apply afterTurn_board.
      * intros _. rewrite afterTurn_timers, !count_place by done.
        simpl. rewrite (Hlead Hact), Hn. repeat case_decide; done || lia.
Qed.

(** checkWin looks at the slots 0 to 8 and at nothing else. *)
Lemma checkWin_held_ext (a b : array) p :
  (∀ e, e < 9 → held a p e = held b p e) → checkWin a p = checkWin b p.
Proof.
  intros Hheld. unfold checkWin.
  change (entries winCombos) with
    [ (0, [0; 1; 2]); (1, [3; 4; 5]); (2, [6; 7; 8]); (3, [0; 3; 6]);
      (4, [1; 4; 7]); (5, [2; 5; 8]); (6, [0; 4; 8]); (7, [6; 4; 2]) ].
  cbn [firstWin]. rewrite !comboHeld_plays. cbn [forallb].
  by rewrite !(Hheld 0), !(Hheld 1), !(Hheld 2), !(Hheld 3), !(Hheld 4), !(Hheld 5),
    !(Hheld 6), !(Hheld 7), !(Hheld 8) by lia.
Qed.

End pending.

(** In every reachable store in which the game goes on, the board carries as
    many X more than O as there are callbacks pending: a click taken while a
    callback is pending puts X one more ahead, and each callback that moves
    takes one off the lead. *)
Theorem lead_of_X_is_pending_callbacks (s : store) :
  reachable s → gameActive s = true →
  ∃ a, heap s !! origBoard s = Some a ∧
       countMarks a huPlayer = countMarks a aiPlayer + timers s.
Proof.
  intros Hreach Hact. destruct (reachable_lead s Hreach) as (sb & Hc & Hlead).
  exists (encode sb). split; [by destruct Hc as (_ & ? & _)|].
  rewrite !countMarks_encode. by apply Hlead.
Qed.

Lemma lead_of_X_is_pending_callbacks_witness :
  ∃ a, heap twoClicks !! origBoard twoClicks = Some a ∧
       countMarks a huPlayer = countMarks a aiPlayer + timers twoClicks.
Proof.
  apply (lead_of_X_is_pending_callbacks twoClicks); [apply twoClicks_reachable|reflexivity].
Defined.

(** checkWin reads the slots 0 to 8 only: two arrays that agree on their
    first nine slots get the same answer, whatever else they hold and
    however long they are; a slot that is missing counts as not marked. *)
Theorem checkWin_reads_nine_slots (a b : array) (p : player) :
  take 9 a = take 9 b → checkWin a p = checkWin b p.
Proof.
  intros Heq. apply checkWin_held_ext. intros e He. unfold held.
  by rewrite <- (lookup_take_lt a 9 e), <- (lookup_take_lt b 9 e), Heq by done.
Qed.

Lemma checkWin_reads_nine_slots_witness :
  checkWin [Str X; Str X; Str X; Num 3; Num 4; Num 5; Num 6; Num 7; Num 8; Str O; Str O]
           huPlayer
  = checkWin [Str X; Str X; Str X; Num 3; Num 4; Num 5; Num 6; Num 7; Num 8] huPlayer.
Proof. apply checkWin_reads_nine_slots. reflexivity. Defined.

(** ** A finished game *)

Section finished.
Implicit Types (s : store) (sb : Spec.board).

(** In a finished game a callback gets [undefined] from bestSpot, and turn
    ends in the exception of line 61 with the slots as they were. *)
Lemma aiCallback_finished fuel s sb :
  consistent s sb → gameActive s = false → 10 ≤ fuel →
  aiCallback fuel s = Throw s.
Proof.
  intros Hc Hover Hfuel. pose proof (consistent_terminal _ _ Hc) as Hterm.
  destruct Hc as (Hlen & Hs & _ & _).
  unfold aiCallback, bind.
  rewrite (bestSpot_chooseMove fuel s sb Hs) by (pose proof (length_empties sb); lia).
  unfold Spec.chooseMove.
  destruct (Spec.terminal sb) as [v|] eqn:Ht;
    [|destruct Hterm as [_ Hact]; by rewrite Hact in Hover].
  rewrite (search_terminal _ _ _ _ Ht). simpl. by eapply turn_Undefined.
Qed.

Lemma finished_step s s' sb :
  consistent s sb → gameActive s = false → step s s' →
  consistent s' sb ∧ s' = with_timers (timers s') s ∧ timers s' ≤ timers s.
Proof.
  intros Hc Hover Hstep.
  destruct (step_cases _ _ _ Hc Hstep)
    as [->|[(Hact & _)|[(_ & n & Hn & ->)|(Hact & _)]]]; try congruence.
  - split; [done|]. split; [by destruct s|done].
  - split; [|split; [done|simpl; lia]].
    destruct Hc as (? & ? & Hv & ?). repeat split; try done;
      unfold verdict in *; by destruct (Spec.terminal sb).
Qed.

End finished.

(** Once the game is over it stays as it is through any further events: the
    global keeps its array, the slots of the board, the flag and the status
    line do not change, and the count of pending callbacks does not go up.
    A click is ignored (line 40).  A callback that comes due gets
    [undefined] from bestSpot; line 58 then sets a property named
    undefined on the array, which is no slot and which nothing reads, and
    line 61 throws, the page having no element of that id: the run ends in
    the exception, one callback fewer pending. *)
Theorem finished_game_stays (s s' : store) :
  reachable s → gameActive s = false → rtc step s s' →
  origBoard s' = origBoard s ∧
  (∃ a, heap s !! origBoard s = Some a ∧ heap s' !! origBoard s' = Some a) ∧
  gameActive s' = false ∧
  status s' = status s ∧
  timers s' ≤ timers s ∧
  (∀ fuel n, 10 ≤ fuel → timers s' = S n →
     aiCallback fuel (with_timers n s') = Throw (with_timers n s')).
Proof.
  intros Hreach Hover Hrun. destruct (reachable_consistent s Hreach) as [sb Hc].
  assert (consistent s' sb ∧ s' = with_timers (timers s') s ∧ timers s' ≤ timers s)
    as (Hc' & Heq & Hle).
  { induction Hrun as [s|s1 s2 s3 Hstep _ IH]; [split; [done|]; split; [by destruct s|done]|].
    destruct (finished_step _ _ _ Hc Hover Hstep) as (Hc2 & Heq2 & Hle2).
    assert (gameActive s2 = false) as Hover2 by (by rewrite Heq2).
    destruct (IH (step_reachable _ _ Hreach Hstep) Hover2 Hc2) as (Hc3 & Heq3 & Hle3).
    split; [done|]. split; [|lia]. rewrite Heq3, Heq2. done. }
  assert (gameActive s' = false) as Hover' by (by rewrite Heq).
  split; [by rewrite Heq|]. split.
  { exists (encode sb). destruct Hc as (_ & ? & _), Hc' as (_ & ? & _). done. }
  split; [done|]. split; [by rewrite Heq|]. split; [done|].
  intros fuel n Hfuel Hn. apply (aiCallback_finished fuel _ sb); [|done..].
  destruct Hc' as (? & ? & Hv & ?). repeat split; try done;
    unfold verdict in *; by destruct (Spec.terminal sb).
Qed.

Lemma finished_game_stays_witness :
  origBoard (with_timers 1 threeClicks) = origBoard threeClicks ∧
  (∃ a, heap threeClicks !! origBoard threeClicks = Some a ∧
        heap (with_timers 1 threeClicks) !! origBoard (with_timers 1 threeClicks) = Some a) ∧
  gameActive (with_timers 1 threeClicks) = false ∧
  status (with_timers 1 threeClicks) = status threeClicks ∧
  timers (with_timers 1 threeClicks) ≤ timers threeClicks ∧
  (∀ fuel n, 10 ≤ fuel → timers (with_timers 1 threeClicks) = S n →
     aiCallback fuel (with_timers n (with_timers 1 threeClicks))
     = Throw (with_timers n (with_timers 1 threeClicks))).
Proof.
  apply (finished_game_stays threeClicks (with_timers 1 threeClicks)).
  - apply threeClicks_reachable.
  - reflexivity.
  - eapply rtc_l; [|apply rtc_refl].
    apply (step_timer 1 threeClicks (with_timers 1 threeClicks) 1); by vm_compute.
Defined.
